(** * paho.mqtt.golang: packet codec, stores, router matching and keepalive

    A shallow embedding of the session-engine core of the MQTT client:
    - [packets]: the fixed-header codec ([encodeLength], [decodeLength],
      [encodeBytes], [NewControlPacket], [NewControlPacketWithHeader],
      [ReadPacket]);
    - [memstore] and [memstore_ordered]: the two in-memory stores;
    - [router]: topic-filter matching;
    - [ping]: the keepalive loop, run over a trace of timed events.

    Go's [int] is modelled by [Z], a [byte] by a [Z] in [0, 256), a
    [uint32] by a [Z] reduced modulo [2^32]. A Go interface value that may
    be [nil] is an [option]. Logging calls are dropped: they do not touch
    the state any property below talks about. *)

From Stdlib Require Import ZArith List Lia Bool Ascii.
From stdpp Require Import gmap strings list fin_maps sorting.
From Equations Require Import Equations.
Import ListNotations.

Module packets.

Local Open Scope Z_scope.

(** ** Bytes, errors and readers *)

Definition to_byte (x : Z) : Z := x mod 256.
Definition to_uint16 (x : Z) : Z := x mod 65536.
Definition to_uint32 (x : Z) : Z := x mod 4294967296.

(** The errors the codec can hand back. *)
Inductive error : Type :=
| EOF                                  (* io.EOF *)
| ErrUnexpectedEOF                     (* io.ErrUnexpectedEOF *)
| ErrFailedToRead                      (* "failed to read expected data" *)
| ErrUnsupportedPacketType (t : Z).    (* "unsupported packet type 0x%x" *)

(** An [io.Reader] is the finite sequence of bytes it still has to
    deliver; once exhausted it reports [io.EOF]. *)
Definition Reader : Type := list Z.

Inductive result (A : Type) : Type :=
| Ok (a : A)
| Err (e : error).
Arguments Ok {A} a.
Arguments Err {A} e.

Definition is_Err {A} (r : result A) : bool :=
  match r with Ok _ => false | Err _ => true end.

(** [io.ReadFull(r, buf)] with [len(buf) = n]: all [n] bytes, or [io.EOF]
    when nothing could be read, or [io.ErrUnexpectedEOF] on a short read. *)
Definition ReadFull (r : Reader) (n : nat) : result (list Z * Reader) :=
  match n with
  | O => Ok ([], r)
  | S _ =>
      match r with
      | [] => Err EOF
      | _ :: _ =>
          if (n <=? length r)%nat then Ok (firstn n r, skipn n r)
          else Err ErrUnexpectedEOF
      end
  end.

(** [bytes.Buffer.Read(p)] with [len(p) = n]: copies what is there, up to
    [n] bytes, and reports [io.EOF] only when the buffer is empty. *)
Definition BufferRead (b : Reader) (n : nat) : result (list Z * Reader) :=
  match n, b with
  | O, _ => Ok ([], b)
  | S _, [] => Err EOF
  | S _, _ :: _ => Ok (firstn n b, skipn n b)
  end.

(** ** Remaining length *)

(** The loop of [decodeLength]; it recurses on the reader, one byte per
    iteration, and is guarded by [multiplier < 27] as in the source. *)
Fixpoint decodeLength_loop (r : Reader) (rLength multiplier : Z)
  : result (Z * Reader) :=
  if multiplier <? 27 then
    match r with
    | [] => Err EOF
    | digit :: r' =>
        let rLength :=
          Z.lor rLength (to_uint32 (Z.shiftl (Z.land digit 127) multiplier)) in
        if Z.land digit 128 =? 0 then Ok (rLength, r')
        else decodeLength_loop r' rLength (multiplier + 7)
    end
  else Ok (rLength, r).

Definition decodeLength (r : Reader) : result (Z * Reader) :=
  decodeLength_loop r 0 0.

(** The loop of [encodeLength]. Go's [%] and [/] on [int] truncate towards
    zero ([Z.rem], [Z.quot]); the loop stops when the quotient is [0]. *)
Equations? encodeLength_loop (length : Z) (encLength : list Z) : list Z
  by wf (Z.to_nat (Z.log2 (Z.abs length))) lt :=
  encodeLength_loop length encLength
    with Z.eq_dec (Z.quot length 128) 0 => {
    | left _ := encLength ++ [to_byte (Z.rem length 128)];
    | right _ :=
        encodeLength_loop (Z.quot length 128)
          (encLength ++
             [if 0 <? Z.quot length 128
              then Z.lor (to_byte (Z.rem length 128)) 128
              else to_byte (Z.rem length 128)]) }.
Proof.
  assert (Habs : 128 <= Z.abs length).
  { destruct (Z_lt_le_dec (Z.abs length) 128) as [Hlt|]; [|assumption].
    exfalso; apply n, Z.quot_small_iff; lia. }
  rewrite <- Z.quot_abs, Z.quot_div_nonneg by lia.
  change (Z.abs 128) with (2 ^ 7). rewrite <- Z.shiftr_div_pow2 by lia.
  rewrite Z.log2_shiftr by lia.
  assert (7 <= Z.log2 (Z.abs length)) by (apply Z.log2_le_pow2; lia).
  lia.
Qed.

Definition encodeLength (length : Z) : list Z := encodeLength_loop length [].

(** ** Length-prefixed fields *)

(** [binary.BigEndian.PutUint16] into a fresh two-byte slice. *)
Definition encodeUint16 (num : Z) : list Z :=
  [to_byte (Z.shiftr num 8); to_byte num].

(** [binary.BigEndian.Uint16]. *)
Definition BigEndianUint16 (hi lo : Z) : Z := Z.lor (Z.shiftl hi 8) lo.

Definition decodeByte (b : Reader) : result (Z * Reader) :=
  match BufferRead b 1 with
  | Err e => Err e
  | Ok (num, b') => Ok (nth 0 num 0, b')
  end.

(** The two-byte buffer starts zeroed, so a one-byte read leaves the low
    byte at [0]. *)
Definition decodeUint16 (b : Reader) : result (Z * Reader) :=
  match BufferRead b 2 with
  | Err e => Err e
  | Ok (num, b') => Ok (BigEndianUint16 (nth 0 num 0) (nth 1 num 0), b')
  end.

Definition len (field : list Z) : Z := Z.of_nat (length field).

Definition encodeBytes (field : list Z) : list Z :=
  let field :=
    if 65535 <? len field then firstn (Z.to_nat 65535) field else field in
  let fieldLength := encodeUint16 (to_uint16 (len field)) in
  fieldLength ++ field.

(** [decodeBytes]: the length prefix, then one [Read] into a fresh slice
    of that length. The slice starts zeroed and [bytes.Buffer.Read] fills
    only what the buffer still holds, so a short body leaves the tail at
    [0]. *)
Definition decodeBytes (b : Reader) : result (list Z * Reader) :=
  match decodeUint16 b with
  | Err e => Err e
  | Ok (fieldLength, b1) =>
      match BufferRead b1 (Z.to_nat fieldLength) with
      | Err e => Err e
      | Ok (got, b2) =>
          Ok (got ++ repeat 0 (Z.to_nat fieldLength - length got)%nat, b2)
      end
  end.

(** A Go [string] is its bytes: the conversions to and from [[]byte] copy
    them unchanged. *)
Definition encodeString (field : list Z) : list Z := encodeBytes field.

Definition decodeString (b : Reader) : result (list Z * Reader) :=
  decodeBytes b.

(** The length that a run of remaining-length bytes stands for: seven
    bits per byte, least significant group first. *)
Fixpoint lengthValue (digits : list Z) : Z :=
  match digits with
  | [] => 0
  | digit :: digits' => Z.land digit 127 + 128 * lengthValue digits'
  end.

(** ** Fixed header and control packets *)

Definition Connect     : Z := 1.
Definition Connack     : Z := 2.
Definition Publish     : Z := 3.
Definition Puback      : Z := 4.
Definition Pubrec      : Z := 5.
Definition Pubrel      : Z := 6.
Definition Pubcomp     : Z := 7.
Definition Subscribe   : Z := 8.
Definition Suback      : Z := 9.
Definition Unsubscribe : Z := 10.
Definition Unsuback    : Z := 11.
Definition Pingreq     : Z := 12.
Definition Pingresp    : Z := 13.
Definition Disconnect  : Z := 14.

Record FixedHeader : Type := mkFixedHeader {
  MessageType : Z;
  Dup : bool;
  Qos : Z;
  Retain : bool;
  RemainingLength : Z
}.

Definition boolToByte (b : bool) : Z := if b then 1 else 0.

Definition pack (fh : FixedHeader) : list Z :=
  to_byte (Z.lor (Z.lor (Z.lor (to_byte (Z.shiftl (MessageType fh) 4))
                               (to_byte (Z.shiftl (boolToByte (Dup fh)) 3)))
                        (to_byte (Z.shiftl (Qos fh) 1)))
                 (boolToByte (Retain fh)))
  :: encodeLength (RemainingLength fh).

Definition unpack (typeAndFlags : Z) (r : Reader)
  : result (FixedHeader * Reader) :=
  match decodeLength r with
  | Err e => Err e
  | Ok (rLength, r') =>
      Ok ({| MessageType := Z.shiftr typeAndFlags 4;
             Dup := 0 <? Z.land (Z.shiftr typeAndFlags 3) 1;
             Qos := Z.land (Z.shiftr typeAndFlags 1) 3;
             Retain := 0 <? Z.land typeAndFlags 1;
             RemainingLength := rLength |}, r')
  end.

(** The fourteen structs that implement [ControlPacket]. *)
Inductive PacketKind : Type :=
| ConnectPacket | ConnackPacket | PublishPacket | PubackPacket
| PubrecPacket | PubrelPacket | PubcompPacket | SubscribePacket
| SubackPacket | UnsubscribePacket | UnsubackPacket | PingreqPacket
| PingrespPacket | DisconnectPacket.

(** The message type each struct stands for. *)
Definition type_of_kind (k : PacketKind) : Z :=
  match k with
  | ConnectPacket => Connect | ConnackPacket => Connack
  | PublishPacket => Publish | PubackPacket => Puback
  | PubrecPacket => Pubrec | PubrelPacket => Pubrel
  | PubcompPacket => Pubcomp | SubscribePacket => Subscribe
  | SubackPacket => Suback | UnsubscribePacket => Unsubscribe
  | UnsubackPacket => Unsuback | PingreqPacket => Pingreq
  | PingrespPacket => Pingresp | DisconnectPacket => Disconnect
  end.

Definition known_type (t : Z) : Prop := 1 <= t <= 14.

(** The QoS bits that [NewControlPacket] writes into the header of each
    struct. *)
Definition initialQos (k : PacketKind) : Z :=
  match k with
  | PubrelPacket | SubscribePacket | UnsubscribePacket => 1
  | _ => 0
  end.

Section ControlPackets.

(** The structs' own fields (topic name, payload, message identifier,
    ...) are declared in files outside this development; [Fields] stands
    for them and [zeroFields] for their Go zero values. *)
Context {Fields : Type}.
Variable zeroFields : Fields.

(** A non-nil [ControlPacket]: a pointer to one of the fourteen structs. *)
Record ControlPacket : Type := mkControlPacket {
  kind : PacketKind;
  header : FixedHeader;
  fields : Fields
}.

Definition newPacket (k : PacketKind) (fh : FixedHeader) : ControlPacket :=
  {| kind := k; header := fh; fields := zeroFields |}.

Definition withType (t : Z) : FixedHeader :=
  {| MessageType := t; Dup := false; Qos := 0; Retain := false;
     RemainingLength := 0 |}.

Definition withTypeQos (t q : Z) : FixedHeader :=
  {| MessageType := t; Dup := false; Qos := q; Retain := false;
     RemainingLength := 0 |}.

(** The cases are the constants [Connect] to [Disconnect], in the order
    of the source; [None] is the [nil] interface value returned after the
    switch. *)
Definition NewControlPacket (packetType : Z) : option ControlPacket :=
  match packetType with
  | 1 => Some (newPacket ConnectPacket (withType Connect))
  | 2 => Some (newPacket ConnackPacket (withType Connack))
  | 14 => Some (newPacket DisconnectPacket (withType Disconnect))
  | 3 => Some (newPacket PublishPacket (withType Publish))
  | 4 => Some (newPacket PubackPacket (withType Puback))
  | 5 => Some (newPacket PubrecPacket (withType Pubrec))
  | 6 => Some (newPacket PubrelPacket (withTypeQos Pubrel 1))
  | 7 => Some (newPacket PubcompPacket (withType Pubcomp))
  | 8 => Some (newPacket SubscribePacket (withTypeQos Subscribe 1))
  | 9 => Some (newPacket SubackPacket (withType Suback))
  | 10 => Some (newPacket UnsubscribePacket (withTypeQos Unsubscribe 1))
  | 11 => Some (newPacket UnsubackPacket (withType Unsuback))
  | 12 => Some (newPacket PingreqPacket (withType Pingreq))
  | 13 => Some (newPacket PingrespPacket (withType Pingresp))
  | _ => None
  end.

Definition NewControlPacketWithHeader (fh : FixedHeader)
  : result ControlPacket :=
  match MessageType fh with
  | 1 => Ok (newPacket ConnectPacket fh)
  | 2 => Ok (newPacket ConnackPacket fh)
  | 14 => Ok (newPacket DisconnectPacket fh)
  | 3 => Ok (newPacket PublishPacket fh)
  | 4 => Ok (newPacket PubackPacket fh)
  | 5 => Ok (newPacket PubrecPacket fh)
  | 6 => Ok (newPacket PubrelPacket fh)
  | 7 => Ok (newPacket PubcompPacket fh)
  | 8 => Ok (newPacket SubscribePacket fh)
  | 9 => Ok (newPacket SubackPacket fh)
  | 10 => Ok (newPacket UnsubscribePacket fh)
  | 11 => Ok (newPacket UnsubackPacket fh)
  | 12 => Ok (newPacket PingreqPacket fh)
  | 13 => Ok (newPacket PingrespPacket fh)
  | t => Err (ErrUnsupportedPacketType t)
  end.

(** The variant's [Unpack] method: it fills the packet in place from the
    body bytes and returns an error or [nil]. Its fourteen
    implementations live with the structs. *)
Variable Unpack : ControlPacket -> Reader -> ControlPacket * option error.

(** [ReadPacket] returns the Go pair (packet, error); either component
    may be [nil], here [None]. *)
Definition ReadPacket (r : Reader) : option ControlPacket * option error :=
  match ReadFull r 1 with
  | Err e => (None, Some e)
  | Ok (b, r1) =>
      match unpack (nth 0 b 0) r1 with
      | Err e => (None, Some e)
      | Ok (fh, r2) =>
          match NewControlPacketWithHeader fh with
          | Err e => (None, Some e)
          | Ok cp =>
              match ReadFull r2 (Z.to_nat (RemainingLength fh)) with
              | Err e => (None, Some e)
              | Ok (packetBytes, _) =>
                  if negb (len packetBytes =? RemainingLength fh)
                  then (None, Some ErrFailedToRead)
                  else
                    let (cp', err) := Unpack cp packetBytes in
                    (Some cp', err)
              end
          end
      end
  end.

End ControlPackets.

Arguments ControlPacket Fields : clear implicits.

(** Modelled from the spec: the [Unpack] methods of the variants are not
    available. The data model gives the acknowledgement variants (PUBACK,
    PUBREC, PUBREL, PUBCOMP, UNSUBACK) a 16-bit message identifier as
    their only field and says that a body that runs short is an error; for
    them [Unpack] is [decodeUint16] on the body. The other variants are
    left as they are. *)
Definition UnpackMessageID (cp : ControlPacket Z) (b : Reader)
  : ControlPacket Z * option error :=
  match kind cp with
  | PubackPacket | PubrecPacket | PubrelPacket | PubcompPacket
  | UnsubackPacket =>
      match decodeUint16 b with
      | Err e => ({| kind := kind cp; header := header cp; fields := 0 |},
                  Some e)
      | Ok (mid, _) =>
          ({| kind := kind cp; header := header cp; fields := mid |}, None)
      end
  | _ => (cp, None)
  end.

End packets.

(** ** The unordered in-memory store (memstore.go) *)

Module memstore.

Section Store.

(** The packets a store holds are opaque to it. A [ControlPacket]
    interface value is [Some p] or the [nil] interface, [None]. *)
Context {Packet : Type}.

Record MemoryStore : Type := mkMemoryStore {
  messages : gmap string (option Packet);
  opened : bool
}.

Definition NewMemoryStore : MemoryStore :=
  {| messages := ∅; opened := false |}.

Definition Open (store : MemoryStore) : MemoryStore :=
  {| messages := messages store; opened := true |}.

Definition Put (key : string) (message : option Packet)
    (store : MemoryStore) : MemoryStore :=
  if negb (opened store) then store
  else {| messages := <[key := message]> (messages store);
          opened := opened store |}.

(** [store.messages[key]]: the zero value, [nil], when the key is absent. *)
Definition index (store : MemoryStore) (key : string) : option Packet :=
  default None (messages store !! key).

Definition Get (key : string) (store : MemoryStore) : option Packet :=
  if negb (opened store) then None
  else index store key.

(** [All] ranges over the map, whose iteration order Go leaves
    unspecified: any enumeration of the keys may come back. On a store
    that is not open the result is the [nil] slice. *)
Definition All_returns (store : MemoryStore) (keys : list string) : Prop :=
  if negb (opened store) then keys = []
  else keys ≡ₚ (map_to_list (messages store)).*1.

Definition Del (key : string) (store : MemoryStore) : MemoryStore :=
  if negb (opened store) then store
  else
    match index store key with
    | None => store
    | Some _ => {| messages := delete key (messages store);
                   opened := opened store |}
    end.

Definition Close (store : MemoryStore) : MemoryStore :=
  if negb (opened store) then store
  else {| messages := messages store; opened := false |}.

(** The check for [!store.opened] only logs: there is no [return] after
    it, so the map is replaced in either case. *)
Definition Reset (store : MemoryStore) : MemoryStore :=
  {| messages := ∅; opened := opened store |}.

End Store.

Arguments MemoryStore Packet : clear implicits.

End memstore.

(** ** The ordered in-memory store (memstore_ordered.go) *)

Module memstore_ordered.

Section Store.

Context {Packet : Type}.

(** A [time.Time] is an instant of the clock, in nanoseconds. *)
Record storedMessage : Type := mkStoredMessage {
  ts : Z;
  msg : option Packet
}.

Record OrderedMemoryStore : Type := mkOrderedMemoryStore {
  messages : gmap string storedMessage;
  opened : bool
}.

Definition NewOrderedMemoryStore : OrderedMemoryStore :=
  {| messages := ∅; opened := false |}.

Definition Open (store : OrderedMemoryStore) : OrderedMemoryStore :=
  {| messages := messages store; opened := true |}.

(** [now] is what [time.Now()] returns inside this call. *)
Definition Put (now : Z) (key : string) (message : option Packet)
    (store : OrderedMemoryStore) : OrderedMemoryStore :=
  if negb (opened store) then store
  else {| messages := <[key := {| ts := now; msg := message |}]>
                        (messages store);
          opened := opened store |}.

Definition Get (key : string) (store : OrderedMemoryStore)
  : option Packet :=
  if negb (opened store) then None
  else
    match messages store !! key with
    | Some m => msg m
    | None => None
    end.

(** [t.Before(u)]. *)
Definition Before (t u : Z) : bool := (t <? u)%Z.

(** What [sort.Slice] guarantees for the comparison
    [tsKeys[a].ts.Before(tsKeys[b].ts)]: no element is followed by one
    that is strictly before it. The sort is not stable. *)
Definition sorted_by_ts (tsKeys : list (Z * string)) : Prop :=
  StronglySorted (fun a b => Before b.1 a.1 = false) tsKeys.

(** The slice built by ranging over the map, in whatever order the
    runtime picks, and then sorted. *)
Definition All_returns (store : OrderedMemoryStore) (keys : list string)
  : Prop :=
  if negb (opened store) then keys = []
  else
    exists tsKeys : list (Z * string),
      tsKeys ≡ₚ (fun kv => (ts kv.2, kv.1)) <$> map_to_list (messages store)
      /\ sorted_by_ts tsKeys
      /\ keys = tsKeys.*2.

(** The timestamp recorded against a key. *)
Definition recorded (store : OrderedMemoryStore) (key : string)
  : option Z :=
  ts <$> messages store !! key.

(** What [keys] being in ascending order of recorded time means. *)
Definition ascending (store : OrderedMemoryStore) (keys : list string)
  : Prop :=
  StronglySorted
    (fun k k' => exists t t', recorded store k = Some t
                              /\ recorded store k' = Some t'
                              /\ (t <= t')%Z)
    keys.

Definition Del (key : string) (store : OrderedMemoryStore)
  : OrderedMemoryStore :=
  if negb (opened store) then store
  else
    match messages store !! key with
    | None => store
    | Some _ => {| messages := delete key (messages store);
                   opened := opened store |}
    end.

Definition Close (store : OrderedMemoryStore) : OrderedMemoryStore :=
  if negb (opened store) then store
  else {| messages := messages store; opened := false |}.

(** As in the unordered store, the [!store.opened] check only logs. *)
Definition Reset (store : OrderedMemoryStore) : OrderedMemoryStore :=
  {| messages := ∅; opened := opened store |}.

(** The map entry a [Put] writes. *)
Definition entry (p : Z * string * option Packet) : string * storedMessage :=
  (p.1.2, {| ts := p.1.1; msg := p.2 |}).

(** A run of [Put] calls, first to last; each carries the clock reading
    taken inside it, the key and the packet. *)
Definition PutAll (puts : list (Z * string * option Packet))
    (store : OrderedMemoryStore) : OrderedMemoryStore :=
  fold_left (fun s p => Put p.1.1 p.1.2 p.2 s) puts store.

End Store.

Arguments storedMessage Packet : clear implicits.
Arguments OrderedMemoryStore Packet : clear implicits.

End memstore_ordered.

(** ** The file store: how [all] turns a directory listing into keys *)

Module filestore.

Definition msgExt : string := ".msg".
Definition tmpExt : string := ".tmp".
Definition corruptExt : string := ".CORRUPT".

(** The file names that [fullpath], [tmppath] and [corruptpath] join to
    the store directory. *)
Definition msgName (key : string) : string := String.append key msgExt.
Definition tmpName (key : string) : string := String.append key tmpExt.
Definition corruptName (key : string) : string :=
  String.append key corruptExt.

(** The body of the loop of [all] for one file name: names that do not
    end in [msgExt] are skipped ([None]); the others lose their last four
    bytes. *)
Definition keyOfName (name : string) : option string :=
  if (String.length name <? String.length msgExt)%nat
     || negb (String.eqb
                (String.substring
                   (String.length name - String.length msgExt)
                   (String.length msgExt) name)
                msgExt)
  then None
  else Some (String.substring 0 (String.length name - 4) name).

(** What [all] needs of an [fs.FileInfo]. *)
Record fileInfo : Type := mkFileInfo {
  Name : string;
  ModTime : Z
}.

(** [fileInfos.Less]. *)
Definition Less (f g : fileInfo) : bool := (ModTime f <? ModTime g)%Z.

(** [all], given what [os.ReadDir] found in the store directory: [nil]
    on a store that is not open; otherwise the files are sorted with
    [sort.Sort], which promises an order with no file before one that is
    [Less], and is not stable, and the names are filtered in that
    order. *)
Definition all_returns (opened : bool) (entries : list fileInfo)
    (keys : list string) : Prop :=
  if negb opened then keys = []
  else
    exists files : list fileInfo,
      files ≡ₚ entries
      /\ StronglySorted (fun f g => Less g f = false) files
      /\ keys = omap (fun f => keyOfName (Name f)) files.

End filestore.

(** ** Topic-filter matching (router) *)

Module router.

Local Open Scope string_scope.

(** [strings.Split(s, "/")]: the levels of a filter or topic. *)
Fixpoint Split (s : string) : list string :=
  match s with
  | EmptyString => [EmptyString]
  | String c s' =>
      if Ascii.eqb c "/"%char then EmptyString :: Split s'
      else
        match Split s' with
        | [] => [String c EmptyString]
        | l :: ls => String c l :: ls
        end
  end.

(** Modelled from the spec: router.go is not available, only its tests
    are. Matching is structural: filter and topic are split on
    the level separator and compared level by level; [+] matches exactly
    one level; [#] matches all remaining levels, including none; without
    [#] the level counts must agree. *)
Fixpoint match_levels (route topic : list string) : bool :=
  match route, topic with
  | [], [] => true
  | [], _ :: _ => false
  | r :: _, [] => String.eqb r "#"
  | r :: route', t :: topic' =>
      if String.eqb r "#" then true
      else if String.eqb r "+" || String.eqb r t
           then match_levels route' topic'
           else false
  end.

(** Modelled from the spec: a filter of the form [$share/<group>/<rest>]
    is matched using [<rest>]; the group is consumed and ignored. *)
Definition routeSplit (route : string) : list string :=
  match Split route with
  | "$share" :: _ :: (r :: rest) => r :: rest
  | levels => levels
  end.

Definition first_char_is (s : string) (c : Ascii.ascii) : bool :=
  match s with
  | String c' _ => Ascii.eqb c' c
  | EmptyString => false
  end.

(** The filter's first character, after the shared-subscription prefix is
    stripped, is a wildcard. *)
Definition starts_with_wildcard (levels : list string) : bool :=
  match levels with
  | l :: _ => first_char_is l "+"%char || first_char_is l "#"%char
  | [] => false
  end.

(** The filter's first level, after the shared-subscription prefix is
    stripped, is one of the two wildcards. *)
Definition first_level_wildcard (levels : list string) : bool :=
  match levels with
  | l :: _ => String.eqb l "+" || String.eqb l "#"
  | [] => false
  end.

(** Modelled from the spec: topics beginning with [$] are excluded from
    matches against filters that start with a wildcard; everything else is
    decided by the level-by-level comparison. *)
Definition routeIncludesTopic (route topic : string) : bool :=
  let levels := routeSplit route in
  if starts_with_wildcard levels && first_char_is topic "$"%char then false
  else match_levels levels (Split topic).

(** The table of [Test_matchWithWildcardTopicFilter]. *)
Definition wildcard_filter_cases : list (string * string * bool) :=
  [ ("example/+/temp/+", "example/gauge/temp/25", true);
    ("$sys/+/temp/+", "$sys/gauge/temp/25", true);
    ("example/machines/#", "example/machines/robot-2/voltage", true);
    ("$SYS/machines/#", "$SYS/machines/robot-2/voltage", true);
    ("+", "sensor", true);
    ("+/example", "sensor/example", true);
    ("#", "sensor/very/long/topic", true);
    ("$share/group/+/example/+/data", "sensor/example/something/data", true);
    ("$share/group/#", "sensor/this/is/shared", true);
    ("+", "$SYS", false);
    ("+/example/sensor/+", "$VENDOR/example/sensor/data", false);
    ("#", "$sys/very/long/topic", false);
    ("$share/group/#", "$vendor/this/is/shared", false) ].

(** The ASCII rows of [Test_match]. *)
Definition match_cases : list (string * string * bool) :=
  [ ("", "", true); ("x", "", false); ("", "x", false); ("x", "x", true);
    ("x", "X", false); ("alpha", "alpha", true); ("alpha", "beta", false);
    ("/", "/", true); ("/one", "/one", true); ("/", "/two", false);
    ("/two", "/", false); ("/two", "two", false); ("/a/", "/a", false);
    ("/a/", "/a/b", false); ("/a/b", "/a/b", true); ("/a/b/", "/a/b", false);
    ("/a/b", "/R/b", false);
    ("/a/+/c", "/a/b/c", true); ("/+/b/c", "/a/b/c", true);
    ("/a/b/+", "/a/b/c", true); ("/a/+/+", "/a/b/c", true);
    ("/+/+/+", "/a/b/c", true); ("/+/+/c", "/a/b/c", true);
    ("/a/b/c/+", "/a/b/c", false); ("+", "a", true); ("/+", "a", false);
    ("+/+", "/a", true); ("+/+", "a", false);
    ("#", "/a/b/c", true); ("/#", "/a/b/c", true); ("/a/#", "/a/b/c", true);
    ("/a/b/#", "/a/b/c", true) ].

Definition passes (c : string * string * bool) : bool :=
  Bool.eqb (routeIncludesTopic c.1.1 c.1.2) c.2.

End router.

(** ** The keepalive loop (ping.go) *)

Module ping.

Local Open Scope Z_scope.

(** Instants and durations are nanoseconds. *)
Definition Second : Z := 1000000000.

Record options : Type := mkOptions {
  KeepAlive : Z;     (* seconds *)
  PingTimeout : Z    (* a time.Duration *)
}.

(** The fields of the client that the loop shares with the reader and
    writer goroutines. *)
Record client : Type := mkClient {
  lastSent : Z;
  lastReceived : Z;
  pingOutstanding : Z
}.

Definition checkInterval (o : options) : Z :=
  if 10 <? KeepAlive o then 5 * Second
  else Z.quot (KeepAlive o * Second) 4.

(** The clock readings taken during one pass through the ticker case, in
    program order. *)
Record readings : Type := mkReadings {
  atSinceLastSent : Z;       (* time.Since(lastSent) *)
  atSinceLastReceived : Z;   (* time.Since(lastReceived) *)
  atStoreLastSent : Z;       (* c.lastSent.Store(time.Now()) *)
  atPingSent : Z;            (* pingSent = time.Now() *)
  atSincePingSent : Z        (* time.Since(pingSent) *)
}.

(** What the select receives, and what the other goroutines do to the
    shared fields between two passes. *)
Inductive event : Type :=
| Stop                          (* c.stop is closed *)
| Tick (r : readings)           (* intervalTicker.C fires *)
| PacketSent (at_ : Z)          (* the writer stamps lastSent *)
| PacketReceived (at_ : Z)      (* the reader stamps lastReceived *)
| PingrespReceived (at_ : Z).   (* the reader clears pingOutstanding *)

Inductive action : Type :=
| SendPingreq (at_ : Z)   (* ping.Write(conn), stamped with pingSent *)
| ConnLost.               (* c.internalConnLost(...) *)

Inductive status : Type :=
| Running    (* still in the loop *)
| Stopped    (* returned from the c.stop case *)
| Lost.      (* returned after internalConnLost *)

(** [time.Since(pingSent)] read at [now]; [pingSent] starts as the zero
    [time.Time], for which the difference saturates. *)
Definition maxDuration : Z := 9223372036854775807.

Definition sincePingSent (now : Z) (pingSent : option Z) : Z :=
  match pingSent with
  | Some t => now - t
  | None => maxDuration
  end.

(** The first [if] of the ticker case: send a PINGREQ when the connection
    has been idle and no probe is outstanding. The flag is stored before
    the write, and a write error is only logged. *)
Definition probe (o : options) (r : readings) (c : client)
    (pingSent : option Z) : client * option Z * list action :=
  if (KeepAlive o * Second <=? atSinceLastSent r - lastSent c)
     || (KeepAlive o * Second <=? atSinceLastReceived r - lastReceived c)
  then
    if pingOutstanding c =? 0 then
      ({| lastSent := atStoreLastSent r;
          lastReceived := lastReceived c;
          pingOutstanding := 1 |},
       Some (atPingSent r),
       [SendPingreq (atPingSent r)])
    else (c, pingSent, [])
  else (c, pingSent, []).

(** The second [if]: the probe has been outstanding for too long. *)
Definition timedOut (o : options) (r : readings) (c : client)
    (pingSent : option Z) : bool :=
  (0 <? pingOutstanding c)
  && (PingTimeout o <=? sincePingSent (atSincePingSent r) pingSent).

(** One pass through the ticker case, taken as a single step: the other
    goroutines act on the shared fields between passes. The boolean says
    that the loop returns. *)
Definition tick (o : options) (r : readings) (c : client)
    (pingSent : option Z) : client * option Z * list action * bool :=
  let '(c', pingSent', acts) := probe o r c pingSent in
  if timedOut o r c' pingSent'
  then (c', pingSent', acts ++ [ConnLost], true)
  else (c', pingSent', acts, false).

(** Modelled from the spec: the reader and writer paths, which are not
    available, stamp the two timestamps and clear the outstanding-probe
    flag on a PINGRESP. *)
Definition environment (e : event) (c : client) : client :=
  match e with
  | PacketSent t =>
      {| lastSent := t; lastReceived := lastReceived c;
         pingOutstanding := pingOutstanding c |}
  | PacketReceived t =>
      {| lastSent := lastSent c; lastReceived := t;
         pingOutstanding := pingOutstanding c |}
  | PingrespReceived t =>
      {| lastSent := lastSent c; lastReceived := t; pingOutstanding := 0 |}
  | _ => c
  end.

(** The [for { select { ... } }] loop run over a finite sequence of
    events: what it did, how it ended, and the shared fields at that
    point. *)
Fixpoint keepalive_loop (o : options) (events : list event) (c : client)
    (pingSent : option Z) : list action * status * client :=
  match events with
  | [] => ([], Running, c)
  | Stop :: _ => ([], Stopped, c)
  | Tick r :: events' =>
      let '(c', pingSent', acts, returns) := tick o r c pingSent in
      if returns then (acts, Lost, c')
      else
        let '(acts', st, c'') := keepalive_loop o events' c' pingSent' in
        (acts ++ acts', st, c'')
  | e :: events' => keepalive_loop o events' (environment e c) pingSent
  end.

(** [keepalive] starts with [pingSent] at the zero time. *)
Definition keepalive (o : options) (events : list event) (c : client)
  : list action * status * client :=
  keepalive_loop o events c None.

Definition is_SendPingreq (a : action) : bool :=
  match a with SendPingreq _ => true | ConnLost => false end.

Definition is_ConnLost (a : action) : bool :=
  match a with ConnLost => true | SendPingreq _ => false end.

Definition pings (acts : list action) : nat :=
  length (List.filter is_SendPingreq acts).

Definition losses (acts : list action) : nat :=
  length (List.filter is_ConnLost acts).

Definition is_PingrespReceived (e : event) : bool :=
  match e with PingrespReceived _ => true | _ => false end.

Definition is_Stop (e : event) : bool :=
  match e with Stop => true | _ => false end.

(** The PINGRESPs the reader saw during a run. *)
Definition responses (events : list event) : nat :=
  length (List.filter is_PingrespReceived events).

(** A PINGRESP reached the reader within the probe-response timeout of a
    PINGREQ stamped [sent]. *)
Definition answered_in_time (o : options) (events : list event) (sent : Z)
  : bool :=
  existsb (fun e => match e with
                    | PingrespReceived t =>
                        (sent <=? t) && (t <=? sent + PingTimeout o)
                    | _ => false
                    end) events.

(** The ticker fired at or after the response deadline of that PINGREQ. *)
Definition deadline_ticked (o : options) (events : list event) (sent : Z)
  : bool :=
  existsb (fun e => match e with
                    | Tick r => sent + PingTimeout o <=? atSincePingSent r
                    | _ => false
                    end) events.

(** A keepalive of 30 s, checked every 5 s, with a probe-response
    timeout of 7 s. *)
Definition o30 : options :=
  {| KeepAlive := 30; PingTimeout := 7 * Second |}.

(** One set of clock readings, a few microseconds apart, starting at
    [t]. *)
Definition pass (t : Z) : readings :=
  {| atSinceLastSent := t; atSinceLastReceived := t + 1000;
     atStoreLastSent := t + 2000; atPingSent := t + 3000;
     atSincePingSent := t + 4000 |}.

(** An idle connection: the PINGREQ goes out at 30 s, the PINGRESP comes
    back at 38 s, eight seconds later, between two passes. *)
Definition late_pingresp : list event :=
  [ Tick (pass (30 * Second)); Tick (pass (35 * Second));
    PingrespReceived (38 * Second);
    Tick (pass (40 * Second)); Tick (pass (45 * Second)) ].

(** The same connection, after the send, when nothing comes back. *)
Definition no_pingresp : list event :=
  [ Tick (pass (35 * Second)); PacketSent (36 * Second) ].

Definition idle : client :=
  {| lastSent := 0; lastReceived := 0; pingOutstanding := 0 |}.

End ping.

(** * Properties of the packet codec *)

Section LengthCodec.

Import packets.
Local Open Scope Z_scope.

(** A boolean property checked on every value of [0, 128) holds there. *)
Lemma forall_below_128 (P : Z -> bool) :
  forallb P (map Z.of_nat (seq 0 128)) = true ->
  forall x, 0 <= x < 128 -> P x = true.
Proof.
  intros Hall x Hx. rewrite forallb_forall in Hall. apply Hall.
  apply in_map_iff. exists (Z.to_nat x). split; [lia|].
  apply in_seq. lia.
Qed.

Ltac below_128 x Hx :=
  apply Z.eqb_eq;
  revert x Hx; apply forall_below_128; vm_compute; reflexivity.

Lemma land_127_small x : 0 <= x < 128 -> Z.land x 127 = x.
Proof. intros Hx. below_128 x Hx. Qed.

Lemma land_128_small x : 0 <= x < 128 -> Z.land x 128 = 0.
Proof. intros Hx. below_128 x Hx. Qed.

Lemma lor_128_small x : 0 <= x < 128 -> Z.lor x 128 = x + 128.
Proof. intros Hx. below_128 x Hx. Qed.

Lemma land_127_cont x : 0 <= x < 128 -> Z.land (x + 128) 127 = x.
Proof. intros Hx. below_128 x Hx. Qed.

Lemma land_128_cont x : 0 <= x < 128 -> Z.land (x + 128) 128 = 128.
Proof. intros Hx. below_128 x Hx. Qed.

Lemma land_127_range d : 0 <= Z.land d 127 < 128.
Proof.
  change 127 with (Z.ones 7). rewrite Z.land_ones by lia.
  apply Z.mod_pos_bound. lia.
Qed.

(** Below the bits already gathered, the shifted digit is all zeros: the
    [|=] of the loop adds. *)
Lemma lor_shifted_digit acc d m :
  0 <= m <= 21 -> 0 <= acc < 2 ^ m -> 0 <= d < 128 ->
  Z.lor acc (to_uint32 (Z.shiftl d m)) = acc + d * 2 ^ m.
Proof.
  intros Hm Hacc Hd.
  assert (Hpow : 0 < 2 ^ m <= 2 ^ 21).
  { split; [apply Z.pow_pos_nonneg; lia|apply Z.pow_le_mono_r; lia]. }
  rewrite Z.shiftl_mul_pow2 by lia.
  unfold to_uint32. rewrite Z.mod_small by (change (2 ^ 21) with 2097152 in Hpow; nia).
  rewrite <- Z.lxor_lor, <- Z.add_nocarry_lxor; try reflexivity.
  all: apply Z.bits_inj'; intros n Hn; rewrite Z.land_spec, Z.bits_0.
  all: destruct (Z_lt_le_dec n m) as [Hlt|Hge].
  all: try (rewrite Z.mul_pow2_bits_low by lia; apply andb_false_r).
  all: rewrite <- (Z.mod_small acc (2 ^ m)) by lia.
  all: rewrite Z.mod_pow2_bits_high by lia; reflexivity.
Qed.

(** One pass of the decoding loop on a byte whose continuation bit is
    set. *)
Lemma decodeLength_loop_continue digit r acc m :
  0 <= m <= 21 -> 0 <= acc < 2 ^ m -> Z.land digit 128 <> 0 ->
  decodeLength_loop (digit :: r) acc m =
  decodeLength_loop r (acc + Z.land digit 127 * 2 ^ m) (m + 7).
Proof.
  intros Hm Hacc Hcont. cbn [decodeLength_loop].
  destruct (Z.ltb_spec m 27) as [_|]; [|lia].
  destruct (Z.eqb_spec (Z.land digit 128) 0) as [|_]; [contradiction|].
  rewrite lor_shifted_digit by (auto using land_127_range). reflexivity.
Qed.

(** One pass on a byte whose continuation bit is clear. *)
Lemma decodeLength_loop_last digit r acc m :
  0 <= m <= 21 -> 0 <= acc < 2 ^ m -> Z.land digit 128 = 0 ->
  decodeLength_loop (digit :: r) acc m =
  Ok (acc + Z.land digit 127 * 2 ^ m, r).
Proof.
  intros Hm Hacc Hlast. cbn [decodeLength_loop].
  destruct (Z.ltb_spec m 27) as [_|]; [|lia].
  rewrite Hlast. cbn [Z.eqb].
  rewrite lor_shifted_digit by (auto using land_127_range). reflexivity.
Qed.

(** Once the multiplier has left the range, nothing more is read. *)
Lemma decodeLength_loop_stop r acc m :
  27 <= m -> decodeLength_loop r acc m = Ok (acc, r).
Proof.
  intros Hm. destruct r; cbn [decodeLength_loop];
    destruct (Z.ltb_spec m 27); (lia || reflexivity).
Qed.

(** The loop reads at most four bytes, whatever the stream holds. *)
Lemma decodeLength_reads_at_most_four r v r' :
  decodeLength r = Ok (v, r') ->
  exists consumed, r = consumed ++ r' /\ (length consumed <= 4)%nat.
Proof.
  unfold decodeLength. cbn [decodeLength_loop].
  destruct r as [|b1 r]; cbn; [discriminate|].
  destruct (_ =? 0); [intros [= <- <-]; exists [b1]; cbn; split; [done|lia]|].
  destruct r as [|b2 r]; cbn; [discriminate|].
  destruct (_ =? 0); [intros [= <- <-]; exists [b1; b2]; cbn; split; [done|lia]|].
  destruct r as [|b3 r]; cbn; [discriminate|].
  destruct (_ =? 0);
    [intros [= <- <-]; exists [b1; b2; b3]; cbn; split; [done|lia]|].
  destruct r as [|b4 r]; cbn; [discriminate|].
  destruct (_ =? 0);
    [intros [= <- <-]; exists [b1; b2; b3; b4]; cbn; split; [done|lia]|].
  rewrite decodeLength_loop_stop by lia.
  intros [= <- <-]; exists [b1; b2; b3; b4]; cbn; split; [done|lia].
Qed.

End LengthCodec.

Section EncodeLength.

Import packets.
Local Open Scope Z_scope.

(** The body of the [for] loop of [encodeLength], once. *)
Lemma encodeLength_loop_unfold L acc :
  encodeLength_loop L acc =
  if Z.eq_dec (Z.quot L 128) 0 then acc ++ [to_byte (Z.rem L 128)]
  else encodeLength_loop (Z.quot L 128)
         (acc ++ [if 0 <? Z.quot L 128
                  then Z.lor (to_byte (Z.rem L 128)) 128
                  else to_byte (Z.rem L 128)]).
Proof.
  simp encodeLength_loop.
  destruct (Z.eq_dec (Z.quot L 128) 0); simp encodeLength_loop; reflexivity.
Qed.

(** The loop only ever appends to what it was given. *)
Lemma encodeLength_loop_app (n : nat) :
  forall L acc, Z.abs L < Z.of_nat n ->
    encodeLength_loop L acc = acc ++ encodeLength_loop L [].
Proof.
  induction n as [|n IH]; intros L acc Hn; [lia|].
  rewrite (encodeLength_loop_unfold L acc), (encodeLength_loop_unfold L []).
  destruct (Z.eq_dec (Z.quot L 128) 0) as [|Hq]; [reflexivity|].
  assert (Hlt : Z.abs (Z.quot L 128) < Z.abs L).
  { assert (L <> 0) by (intros ->; apply Hq; reflexivity).
    rewrite <- Z.quot_abs by lia. apply Z.quot_lt; simpl; lia. }
  rewrite IH by lia. rewrite (IH _ ([] ++ _)) by lia.
  rewrite <- app_assoc. reflexivity.
Qed.

Lemma encodeLength_small L : 0 <= L < 128 -> encodeLength L = [L].
Proof.
  intros HL. unfold encodeLength. rewrite encodeLength_loop_unfold.
  rewrite Z.quot_small, Z.rem_small by lia. cbn.
  unfold to_byte. rewrite Z.mod_small by lia. reflexivity.
Qed.

Lemma encodeLength_step L :
  128 <= L ->
  encodeLength L = (L mod 128 + 128) :: encodeLength (L / 128).
Proof.
  intros HL. unfold encodeLength. rewrite encodeLength_loop_unfold.
  rewrite Z.quot_div_nonneg, Z.rem_mod_nonneg by lia.
  assert (Hq : 0 < L / 128) by (apply Z.div_str_pos; lia).
  destruct (Z.eq_dec (L / 128) 0) as [|_]; [lia|].
  destruct (Z.ltb_spec 0 (L / 128)) as [_|]; [|lia].
  assert (Hm : 0 <= L mod 128 < 128) by (apply Z.mod_pos_bound; lia).
  unfold to_byte. rewrite (Z.mod_small (L mod 128)) by lia.
  rewrite lor_128_small by lia.
  rewrite (encodeLength_loop_app (Z.to_nat (Z.abs (L / 128)) + 1)) by lia.
  reflexivity.
Qed.

(** Decoding what [encodeLength] wrote, from any point of the loop that
    still has room for the [n] groups of seven bits that [L] needs. *)
Lemma decodeLength_loop_encodeLength (n : nat) :
  forall L acc m rest,
    0 <= L < 2 ^ (7 * Z.of_nat (S n)) ->
    0 <= m -> m + 7 * Z.of_nat (S n) <= 28 ->
    0 <= acc < 2 ^ m ->
    decodeLength_loop (encodeLength L ++ rest) acc m =
    Ok (acc + L * 2 ^ m, rest).
Proof.
  induction n as [|n IH]; intros L acc m rest HL Hm Hroom Hacc.
  - change (2 ^ (7 * Z.of_nat 1)) with 128 in HL.
    rewrite encodeLength_small by lia. cbn [app].
    rewrite decodeLength_loop_last by (auto using land_128_small; lia).
    rewrite land_127_small by lia. reflexivity.
  - destruct (Z_lt_le_dec L 128) as [Hsmall|Hbig].
    + rewrite encodeLength_small by lia. cbn [app].
      rewrite decodeLength_loop_last by (try apply land_128_small; lia).
      rewrite land_127_small by lia. reflexivity.
    + assert (Hmod : 0 <= L mod 128 < 128) by (apply Z.mod_pos_bound; lia).
      rewrite encodeLength_step by lia. cbn [app].
      rewrite decodeLength_loop_continue;
        [|lia|lia|rewrite land_128_cont by lia; lia].
      rewrite land_127_cont by lia.
      assert (Hpow : 2 ^ (m + 7) = 2 ^ m * 128)
        by (rewrite Z.pow_add_r by lia; reflexivity).
      assert (Hpos : 0 < 2 ^ m) by (apply Z.pow_pos_nonneg; lia).
      rewrite IH; try lia.
      * f_equal. f_equal. rewrite Hpow.
        pose proof (Z.div_mod L 128 ltac:(lia)). nia.
      * split; [apply Z.div_pos; lia|].
        apply Z.div_lt_upper_bound; [lia|].
        replace (7 * Z.of_nat (S (S n))) with (7 + 7 * Z.of_nat (S n)) in HL
          by lia.
        rewrite Z.pow_add_r in HL by lia. exact (proj2 HL).
      * rewrite Hpow. nia.
Qed.

(** Round trip of the remaining length, for every length that fits the
    four bytes the wire format allows. *)
Lemma decodeLength_encodeLength L rest :
  0 <= L < 268435456 ->
  decodeLength (encodeLength L ++ rest) = Ok (L, rest).
Proof.
  intros HL. unfold decodeLength.
  rewrite (decodeLength_loop_encodeLength 3) by (cbn; lia).
  f_equal. f_equal. lia.
Qed.

(** The fixed header survives [pack] followed by [unpack], for a message
    type of four bits, a QoS of two and a remaining length of at most four
    bytes. *)
Lemma unpack_pack fh rest :
  0 <= MessageType fh < 16 -> 0 <= Qos fh < 4 ->
  0 <= RemainingLength fh < 268435456 ->
  unpack (nth 0 (pack fh) 0) (tl (pack fh) ++ rest) = Ok (fh, rest).
Proof.
  destruct fh as [t d q r L]. cbn [MessageType Qos RemainingLength].
  intros Ht Hq HL. unfold pack, unpack.
  cbn [nth tl MessageType Dup Qos Retain RemainingLength].
  rewrite decodeLength_encodeLength by assumption.
  assert (Hts : t = 0 \/ t = 1 \/ t = 2 \/ t = 3 \/ t = 4 \/ t = 5 \/ t = 6
                \/ t = 7 \/ t = 8 \/ t = 9 \/ t = 10 \/ t = 11 \/ t = 12
                \/ t = 13 \/ t = 14 \/ t = 15) by lia.
  assert (Hqs : q = 0 \/ q = 1 \/ q = 2 \/ q = 3) by lia.
  clear Ht Hq.
  repeat destruct Hts as [->|Hts]; try subst t;
    repeat destruct Hqs as [->|Hqs]; try subst q;
    destruct d, r; reflexivity.
Qed.

End EncodeLength.

Section CodecClaims.

Import packets.
Local Open Scope Z_scope.

(** C1, as stated, fails: five bytes with the continuation bit set decode
    to a length, with no error; the fifth byte is not even read. *)
Lemma decodeLength_fifth_continuation_no_error :
  Forall (fun b => Z.land b 128 <> 0) [255; 255; 255; 255; 255]
  /\ decodeLength [255; 255; 255; 255; 255] = Ok (268435455, [255])
  /\ is_Err (decodeLength [255; 255; 255; 255; 255]) = false.
Proof.
  split; [|split; reflexivity].
  repeat constructor; discriminate.
Qed.

(** C1, amended: on a stream whose first four remaining-length bytes all
    have the continuation bit set, [decodeLength] stops after exactly those
    four bytes and returns, with no error, the length assembled from their
    low seven bits; whatever follows (a fifth continuation byte included)
    is left unread. *)
Theorem decodeLength_four_continuation_bytes (b1 b2 b3 b4 : Z) (rest : Reader) :
  Z.land b1 128 <> 0 -> Z.land b2 128 <> 0 ->
  Z.land b3 128 <> 0 -> Z.land b4 128 <> 0 ->
  decodeLength (b1 :: b2 :: b3 :: b4 :: rest) =
  Ok (Z.land b1 127 + Z.land b2 127 * 2 ^ 7
      + Z.land b3 127 * 2 ^ 14 + Z.land b4 127 * 2 ^ 21, rest).
Proof.
  intros H1 H2 H3 H4. unfold decodeLength.
  pose proof (land_127_range b1). pose proof (land_127_range b2).
  pose proof (land_127_range b3). pose proof (land_127_range b4).
  rewrite decodeLength_loop_continue by (cbn; lia || assumption).
  rewrite decodeLength_loop_continue by (cbn; lia || assumption).
  rewrite decodeLength_loop_continue by (cbn; lia || assumption).
  rewrite decodeLength_loop_continue by (cbn; lia || assumption).
  rewrite decodeLength_loop_stop by lia.
  f_equal. f_equal. cbn. lia.
Qed.

Lemma decodeLength_four_continuation_bytes_witness :
  decodeLength [128; 129; 255; 130; 128; 1] =
  Ok (Z.land 128 127 + Z.land 129 127 * 2 ^ 7
      + Z.land 255 127 * 2 ^ 14 + Z.land 130 127 * 2 ^ 21, [128; 1]).
Proof.
  apply (decodeLength_four_continuation_bytes 128 129 255 130 [128; 1]);
    vm_compute; discriminate.
Defined.

(** C3: for each of the boundary lengths 0, 1, 127, 128, 16383, 16384,
    2097151 and 2097152, decoding the bytes written by [encodeLength]
    gives the length back, with nothing left over. *)
Theorem encodeLength_decodeLength_boundaries :
  Forall (fun L => decodeLength (encodeLength L) = Ok (L, []))
    [0; 1; 127; 128; 16383; 16384; 2097151; 2097152].
Proof.
  repeat constructor.
  all: match goal with
       | |- decodeLength (encodeLength ?L) = _ =>
           rewrite <- (app_nil_r (encodeLength L));
           apply decodeLength_encodeLength; lia
       end.
Qed.

(** The two-byte big-endian prefix of a length that fits sixteen bits. *)
Lemma encodeUint16_big_endian n :
  0 <= n <= 65535 ->
  encodeUint16 (to_uint16 n) = [n / 256; n mod 256].
Proof.
  intros Hn. unfold encodeUint16, to_uint16, to_byte.
  rewrite (Z.mod_small n 65536) by lia.
  rewrite Z.shiftr_div_pow2 by lia. change (2 ^ 8) with 256.
  rewrite (Z.mod_small (n / 256)); [reflexivity|].
  split; [apply Z.div_pos; lia|apply Z.div_lt_upper_bound; lia].
Qed.

(** C8: a field of at most 65535 bytes is written whole behind its length
    as two big-endian bytes; a longer field is cut to its first 65535
    bytes, behind the prefix [0xFF 0xFF]. [encodeBytes] has no error
    result in either case. *)
Theorem encodeBytes_prefix_or_truncation (field : list Z) :
  (len field <= 65535 ->
   encodeBytes field = [len field / 256; len field mod 256] ++ field)
  /\ (65535 < len field ->
      encodeBytes field = [255; 255] ++ firstn (Z.to_nat 65535) field
      /\ len (firstn (Z.to_nat 65535) field) = 65535).
Proof.
  unfold encodeBytes. split; intros Hlen.
  - destruct (Z.ltb_spec 65535 (len field)) as [|_]; [lia|].
    rewrite encodeUint16_big_endian; [reflexivity|unfold len in *; lia].
  - destruct (Z.ltb_spec 65535 (len field)) as [_|]; [|lia].
    assert (Hcut : len (firstn (Z.to_nat 65535) field) = 65535).
    { unfold len in *. rewrite length_firstn. lia. }
    rewrite Hcut. split; reflexivity.
Qed.

Lemma encodeBytes_prefix_or_truncation_witness :
  (len [1; 2; 3] <= 65535 /\
   encodeBytes [1; 2; 3] =
     [len [1; 2; 3] / 256; len [1; 2; 3] mod 256] ++ [1; 2; 3])
  /\ (65535 < len (repeat 7 (Z.to_nat 65536)) /\
      encodeBytes (repeat 7 (Z.to_nat 65536)) =
        [255; 255] ++ firstn (Z.to_nat 65535) (repeat 7 (Z.to_nat 65536))).
Proof.
  assert (H1 : len [1; 2; 3] <= 65535) by (vm_compute; discriminate).
  assert (H2 : 65535 < len (repeat 7 (Z.to_nat 65536)))
    by (vm_compute; reflexivity).
  split; split; try assumption.
  - exact (proj1 (encodeBytes_prefix_or_truncation [1; 2; 3]) H1).
  - exact (proj1 (proj2 (encodeBytes_prefix_or_truncation _) H2)).
Defined.

End CodecClaims.

Section PacketClaims.

Import packets.
Local Open Scope Z_scope.

Context {Fields : Type}.
Variable zeroFields : Fields.

Lemma known_type_kind t :
  known_type t -> exists k, type_of_kind k = t.
Proof.
  unfold known_type. intros Ht.
  assert (Hcases : t = 1 \/ t = 2 \/ t = 3 \/ t = 4 \/ t = 5 \/ t = 6
                   \/ t = 7 \/ t = 8 \/ t = 9 \/ t = 10 \/ t = 11
                   \/ t = 12 \/ t = 13 \/ t = 14) by lia.
  repeat destruct Hcases as [->|Hcases]; try subst t;
    [ exists ConnectPacket | exists ConnackPacket | exists PublishPacket
    | exists PubackPacket | exists PubrecPacket | exists PubrelPacket
    | exists PubcompPacket | exists SubscribePacket | exists SubackPacket
    | exists UnsubscribePacket | exists UnsubackPacket
    | exists PingreqPacket | exists PingrespPacket
    | exists DisconnectPacket ]; reflexivity.
Qed.

Lemma type_of_kind_known k : known_type (type_of_kind k).
Proof. destruct k; cbv; split; discriminate. Qed.

Lemma unknown_type_cases t :
  ~ known_type t -> t <= 0 \/ 15 <= t.
Proof. unfold known_type. lia. Qed.

Lemma NewControlPacket_unknown t :
  ~ known_type t -> NewControlPacket zeroFields t = None.
Proof.
  intros Ht. apply unknown_type_cases in Ht.
  destruct t as [|p|p]; try reflexivity.
  do 4 (destruct p as [p|p|]; try reflexivity; try lia).
Qed.

Lemma NewControlPacketWithHeader_unknown fh :
  ~ known_type (MessageType fh) ->
  NewControlPacketWithHeader zeroFields fh =
  Err (ErrUnsupportedPacketType (MessageType fh)).
Proof.
  intros Ht. apply unknown_type_cases in Ht.
  unfold NewControlPacketWithHeader.
  destruct (MessageType fh) as [|p|p]; try reflexivity.
  do 4 (destruct p as [p|p|]; try reflexivity; try lia).
Qed.

(** C4, amended: [NewControlPacket] maps each of the fourteen known type
    values to the struct of that type whose fields are all zero except the
    header's message type and, for PUBREL, SUBSCRIBE and UNSUBSCRIBE, a QoS
    of 1; on any other value it returns [nil], with no error value.
    [NewControlPacketWithHeader] wraps the header it is given, unchanged,
    in the struct of its message type, and returns an unsupported-type
    error for any other message type. *)
Theorem NewControlPacket_total :
  (forall t, known_type t ->
     exists k, type_of_kind k = t /\
       NewControlPacket zeroFields t =
       Some {| kind := k;
               header := {| MessageType := t; Dup := false;
                            Qos := initialQos k; Retain := false;
                            RemainingLength := 0 |};
               fields := zeroFields |})
  /\ (forall t, ~ known_type t -> NewControlPacket zeroFields t = None)
  /\ (forall fh, known_type (MessageType fh) ->
        exists k, type_of_kind k = MessageType fh /\
          NewControlPacketWithHeader zeroFields fh =
          Ok {| kind := k; header := fh; fields := zeroFields |})
  /\ (forall fh, ~ known_type (MessageType fh) ->
        NewControlPacketWithHeader zeroFields fh =
        Err (ErrUnsupportedPacketType (MessageType fh))).
Proof.
  split; [|split; [|split]].
  - intros t Ht. destruct (known_type_kind t Ht) as [k <-].
    exists k. split; [reflexivity|]. destruct k; reflexivity.
  - apply NewControlPacket_unknown.
  - intros fh Ht. destruct (known_type_kind _ Ht) as [k Hk].
    exists k. split; [assumption|].
    unfold NewControlPacketWithHeader. rewrite <- Hk.
    destruct k; reflexivity.
  - apply NewControlPacketWithHeader_unknown.
Qed.

(** What [decodeLength] returns is never negative. *)
Lemma decodeLength_loop_nonneg r :
  forall acc m v r', 0 <= acc ->
    decodeLength_loop r acc m = Ok (v, r') -> 0 <= v.
Proof.
  induction r as [|digit r IH]; intros acc m v r' Hacc; cbn [decodeLength_loop].
  - destruct (m <? 27); [discriminate|]. intros [= <- _]. assumption.
  - assert (Hor : 0 <= Z.lor acc (to_uint32 (Z.shiftl (Z.land digit 127) m))).
    { apply Z.lor_nonneg. split; [assumption|].
      unfold to_uint32. apply Z.mod_pos_bound. lia. }
    destruct (m <? 27); [|intros [= <- _]; assumption].
    destruct (_ =? 0); [intros [= <- _]; assumption|].
    apply IH. assumption.
Qed.

Lemma unpack_RemainingLength_nonneg b r fh r' :
  unpack b r = Ok (fh, r') -> 0 <= RemainingLength fh.
Proof.
  unfold unpack, decodeLength.
  destruct (decodeLength_loop r 0 0) as [[v r2]|e] eqn:Hdec; [|discriminate].
  intros [= <- _]. cbn. eapply decodeLength_loop_nonneg; [|exact Hdec]. lia.
Qed.

Lemma ReadFull_length r n body r' :
  ReadFull r n = Ok (body, r') -> length body = n.
Proof.
  unfold ReadFull. destruct n as [|n]; [intros [= <- _]; reflexivity|].
  destruct r as [|b r]; [discriminate|].
  destruct (Nat.leb_spec (S n) (length (b :: r))) as [Hle|]; [|discriminate].
  intros [= <- _]. cbn [length] in *. f_equal.
  apply firstn_length_le. lia.
Qed.

Variable Unpack : ControlPacket Fields -> Reader ->
                  ControlPacket Fields * option error.

(** C10: when the first byte and the remaining length parse, the message
    type is known, the body of exactly [RemainingLength] bytes is read,
    and the variant's [Unpack] of that body fails, [ReadPacket] returns
    the packet together with the error: neither return value is [nil]. *)
Theorem ReadPacket_packet_and_error
    (b : Z) (r r2 r3 body : Reader) (fh : FixedHeader)
    (cp cp' : ControlPacket Fields) (e : error) :
  unpack b r = Ok (fh, r2) ->
  NewControlPacketWithHeader zeroFields fh = Ok cp ->
  ReadFull r2 (Z.to_nat (RemainingLength fh)) = Ok (body, r3) ->
  Unpack cp body = (cp', Some e) ->
  ReadPacket zeroFields Unpack (b :: r) = (Some cp', Some e).
Proof.
  intros Hfh Hcp Hbody Hunpack. unfold ReadPacket.
  cbn [ReadFull length Nat.leb firstn skipn nth].
  change (skipn 0 r) with r. rewrite Hfh, Hcp, Hbody.
  pose proof (unpack_RemainingLength_nonneg _ _ _ _ Hfh) as Hnonneg.
  apply ReadFull_length in Hbody.
  unfold len. rewrite Hbody, Z2Nat.id by assumption.
  rewrite Z.eqb_refl. cbn [negb]. rewrite Hunpack. reflexivity.
Qed.

End PacketClaims.

Section PacketWitnesses.

Import packets.
Local Open Scope Z_scope.

(** C4, as stated, fails: the PUBREL packet built from its discriminant
    is not zero-valued, its header carries QoS 1; and an unknown
    discriminant yields [nil], not an error value. *)
Lemma NewControlPacket_Pubrel_not_zero_valued :
  NewControlPacket tt Pubrel <>
    Some {| kind := PubrelPacket;
            header := {| MessageType := Pubrel; Dup := false; Qos := 0;
                         Retain := false; RemainingLength := 0 |};
            fields := tt |}
  /\ (Qos ∘ header) <$> NewControlPacket tt Pubrel = Some 1
  /\ NewControlPacket tt 0 = None.
Proof. split; [discriminate|split; reflexivity]. Qed.

Lemma NewControlPacket_total_witness :
  known_type Subscribe
  /\ NewControlPacket tt Subscribe =
       Some {| kind := SubscribePacket;
               header := {| MessageType := Subscribe; Dup := false;
                            Qos := 1; Retain := false;
                            RemainingLength := 0 |};
               fields := tt |}
  /\ ~ known_type 15
  /\ NewControlPacket tt 15 = None.
Proof.
  assert (Hk : known_type Subscribe) by (cbv; split; discriminate).
  assert (Hu : ~ known_type 15) by (cbv; intros [_ H]; apply H; reflexivity).
  split; [exact Hk|]. split; [|split; [exact Hu|]].
  - destruct (proj1 (NewControlPacket_total tt) Subscribe Hk) as [k [Hty ->]].
    destruct k; try discriminate Hty. reflexivity.
  - exact (proj1 (proj2 (NewControlPacket_total tt)) 15 Hu).
Defined.

(** A PUBACK header announcing an empty body: [Unpack] has no message
    identifier to read. *)
Lemma ReadPacket_packet_and_error_witness :
  ReadPacket 0 UnpackMessageID [64; 0] =
  (Some {| kind := PubackPacket;
           header := {| MessageType := 4; Dup := false; Qos := 0;
                        Retain := false; RemainingLength := 0 |};
           fields := 0 |},
   Some EOF).
Proof.
  apply (ReadPacket_packet_and_error 0 UnpackMessageID 64 [0] [] [] []
           {| MessageType := 4; Dup := false; Qos := 0; Retain := false;
              RemainingLength := 0 |}
           {| kind := PubackPacket;
              header := {| MessageType := 4; Dup := false; Qos := 0;
                           Retain := false; RemainingLength := 0 |};
              fields := 0 |});
    reflexivity.
Defined.

End PacketWitnesses.

(** * Properties of the in-memory stores *)

Section MemoryStoreClaims.

Import memstore.

Context {Packet : Type}.
Implicit Types (store : MemoryStore Packet) (m : option Packet).



(** On a store that is not open, [Put], [Get], [All], [Del] and [Close]
    return before touching anything. *)
Lemma unopened_returns_early key m store :
  opened store = false ->
  Put key m store = store /\ Get key store = None
  /\ (forall keys, All_returns store keys <-> keys = [])
  /\ Del key store = store /\ Close store = store.
Proof.
  intros Ho. unfold Put, Get, All_returns, Del, Close. rewrite Ho. cbn.
  repeat split; auto.
Qed.


End MemoryStoreClaims.


(** C2: the stores drop everything they hold when [Reset] is called on
    them while closed. After [Open], [Put] and [Close], a store is closed
    and still holds the message; [Reset] then leaves it with an empty
    map. Both in-memory variants behave this way. *)
Theorem Reset_on_closed_store_wipes_messages :
  (let store := memstore.Close
                  (memstore.Put "o.1" (Some 7%Z)
                     (memstore.Open memstore.NewMemoryStore)) in
   memstore.opened store = false
   /\ memstore.messages store !! "o.1" = Some (Some 7%Z)
   /\ memstore.messages (memstore.Reset store) !! "o.1" = None
   /\ memstore.messages (memstore.Reset store) <> memstore.messages store)
  /\
  (let store := memstore_ordered.Close
                  (memstore_ordered.Put 100%Z "o.1" (Some 7%Z)
                     (memstore_ordered.Open
                        memstore_ordered.NewOrderedMemoryStore)) in
   memstore_ordered.opened store = false
   /\ memstore_ordered.messages store !! "o.1" =
        Some {| memstore_ordered.ts := 100%Z;
                memstore_ordered.msg := Some 7%Z |}
   /\ memstore_ordered.messages (memstore_ordered.Reset store) !! "o.1"
      = None
   /\ memstore_ordered.messages (memstore_ordered.Reset store) <>
      memstore_ordered.messages store).
Proof.
  split; cbn; (split; [reflexivity|]).
  all: split; [apply lookup_insert_eq|].
  all: split; [apply lookup_empty|].
  all: intros Heq; symmetry in Heq; apply insert_non_empty in Heq; exact Heq.
Qed.

Section OrderedMemoryStoreClaims.

Import memstore_ordered.
Local Open Scope Z_scope.

Context {Packet : Type}.
Implicit Types (store : OrderedMemoryStore Packet) (m : option Packet).

(** The entries of a store that was opened empty and then received two
    [Put]s under distinct keys. *)
Lemma two_puts_entries t1 t2 (k1 k2 : string) m1 m2 :
  k1 <> k2 ->
  (fun kv : string * storedMessage Packet => (ts kv.2, kv.1)) <$>
    map_to_list
      (messages (Put t2 k2 m2 (Put t1 k1 m1 (Open NewOrderedMemoryStore))))
  ≡ₚ [(t2, k2); (t1, k1)].
Proof.
  intros Hne. cbn.
  rewrite map_to_list_insert
    by (rewrite lookup_insert_ne by congruence; apply lookup_empty).
  rewrite map_to_list_insert by apply lookup_empty.
  rewrite map_to_list_empty. reflexivity.
Qed.

(** Every pair that [All] sorts comes from the map. *)
Lemma entry_recorded store t (k : string) :
  (t, k) ∈ (fun kv : string * storedMessage Packet => (ts kv.2, kv.1)) <$>
             map_to_list (messages store) ->
  recorded store k = Some t.
Proof.
  intros Hin. apply list_elem_of_fmap in Hin as [[k' v] [[= -> ->] Hin]].
  apply elem_of_map_to_list in Hin. unfold recorded. rewrite Hin.
  reflexivity.
Qed.

Lemma sorted_by_ts_ascending store (tsKeys : list (Z * string)) :
  (forall t k, (t, k) ∈ tsKeys -> recorded store k = Some t) ->
  sorted_by_ts tsKeys -> ascending store tsKeys.*2.
Proof.
  unfold sorted_by_ts, ascending.
  induction tsKeys as [|[t k] tsKeys IH]; intros Hrec Hsorted; cbn.
  - constructor.
  - apply StronglySorted_inv in Hsorted as [Htail Hhead].
    constructor.
    + apply IH; [|exact Htail]. intros t' k' Hin. apply Hrec. by right.
    + apply Forall_fmap, Forall_forall. intros [t' k'] Hin.
      rewrite Forall_forall in Hhead.
      specialize (Hhead _ Hin). cbn in *.
      exists t, t'. split; [apply Hrec; by left|].
      split; [apply Hrec; by right|].
      unfold Before in Hhead. lia.
Qed.

(** C6, amended: every [Put] on an open store records the clock reading
    against the key; [All] returns the stored keys in ascending order of
    the recorded times; and after [Put(k1, m1)] then [Put(k2, m2)] on a
    store that was opened empty, with [k1] and [k2] distinct and the
    second clock reading strictly later than the first, [All] returns
    [[k1, k2]]. *)
Theorem OrderedMemoryStore_All_in_Put_order
    (t1 t2 : Z) (k1 k2 : string) m1 m2 :
  k1 <> k2 -> t1 < t2 ->
  (forall store now key m, opened store = true ->
     messages (Put now key m store) !! key = Some {| ts := now; msg := m |})
  /\ (forall store keys, opened store = true -> All_returns store keys ->
        keys ≡ₚ (map_to_list (messages store)).*1 /\ ascending store keys)
  /\ (forall keys,
        All_returns
          (Put t2 k2 m2 (Put t1 k1 m1 (Open NewOrderedMemoryStore))) keys
        <-> keys = [k1; k2]).
Proof.
  intros Hne Hlt. split; [|split].
  - intros store now key m Ho. unfold Put. rewrite Ho. cbn.
    apply lookup_insert_eq.
  - intros store keys Ho. unfold All_returns. rewrite Ho. cbn.
    intros (tsKeys & Hperm & Hsorted & ->). split.
    + rewrite Hperm, <- !list_fmap_compose. reflexivity.
    + apply sorted_by_ts_ascending; [|exact Hsorted].
      intros t k Hin. apply entry_recorded. rewrite <- Hperm. exact Hin.
  - intros keys.
    assert (Ho : opened (Put t2 k2 m2
                           (Put t1 k1 m1 (Open NewOrderedMemoryStore)))
                 = true) by reflexivity.
    unfold All_returns. rewrite Ho. cbn [negb]. split.
    + intros (tsKeys & Hperm & Hsorted & ->).
      rewrite two_puts_entries in Hperm by exact Hne.
      symmetry in Hperm. apply Permutation_length_2_inv in Hperm.
      destruct Hperm as [-> | ->]; [|reflexivity].
      apply StronglySorted_inv in Hsorted as [_ Hhead].
      apply Forall_inv in Hhead. unfold Before in Hhead. cbn in Hhead. lia.
    + intros ->. exists [(t1, k1); (t2, k2)]. split; [|split].
      * rewrite two_puts_entries by exact Hne. apply perm_swap.
      * repeat constructor. unfold Before. cbn. lia.
      * reflexivity.
Qed.

(** On an ordered store that is not open, [Put], [Get], [All], [Del] and
    [Close] return before touching anything. *)
Lemma ordered_unopened_returns_early now key m store :
  opened store = false ->
  Put now key m store = store /\ Get key store = None
  /\ (forall keys, All_returns store keys <-> keys = [])
  /\ Del key store = store /\ Close store = store.
Proof.
  intros Ho. unfold Put, Get, All_returns, Del, Close. rewrite Ho. cbn.
  repeat split; auto.
Qed.

End OrderedMemoryStoreClaims.

(** C6, as stated, fails: when the clock reads the same instant for both
    [Put]s, [All] may return the second key first. *)
Lemma All_equal_timestamps_reversed :
  memstore_ordered.All_returns
    (memstore_ordered.Put 5%Z "o.2" (@None Z)
       (memstore_ordered.Put 5%Z "o.1" None
          (memstore_ordered.Open memstore_ordered.NewOrderedMemoryStore)))
    ["o.2"; "o.1"]%string
  /\ ["o.2"; "o.1"]%string <> ["o.1"; "o.2"]%string.
Proof.
  split; [|discriminate].
  unfold memstore_ordered.All_returns. cbn [negb].
  exists [(5%Z, "o.2"%string); (5%Z, "o.1"%string)]. split; [|split].
  - symmetry. apply (two_puts_entries 5%Z 5%Z "o.1" "o.2"). discriminate.
  - repeat constructor.
  - reflexivity.
Qed.

Lemma OrderedMemoryStore_All_in_Put_order_witness :
  "o.1"%string <> "o.2"%string /\ (100 < 250)%Z
  /\ (forall keys,
        memstore_ordered.All_returns
          (memstore_ordered.Put 250 "o.2" (Some 8%Z)
             (memstore_ordered.Put 100 "o.1" (Some 7%Z)
                (memstore_ordered.Open
                   memstore_ordered.NewOrderedMemoryStore))) keys
        <-> keys = ["o.1"; "o.2"]%string).
Proof.
  assert (Hne : "o.1"%string <> "o.2"%string) by discriminate.
  assert (Hlt : (100 < 250)%Z) by reflexivity.
  split; [exact Hne|]. split; [exact Hlt|].
  exact (proj2 (proj2 (OrderedMemoryStore_All_in_Put_order
                         100 250 "o.1" "o.2" (Some 7%Z) (Some 8%Z)
                         Hne Hlt))).
Defined.

(** * Properties of topic matching *)

Section RouterClaims.

Import router.
Local Open Scope string_scope.

Lemma Split_first_char (topic : string) (c : ascii) :
  c <> "/"%char -> first_char_is topic c = true ->
  exists t ts, Split topic = t :: ts /\ first_char_is t c = true.
Proof.
  intros Hsep Hc. destruct topic as [|c' s]; [discriminate|]. cbn in *.
  apply Ascii.eqb_eq in Hc as ->.
  destruct (Ascii.eqb_spec c "/"%char) as [|_]; [contradiction|].
  destruct (Split s) as [|l ls]; eexists _, _; (split; [reflexivity|]);
    cbn; apply Ascii.eqb_refl.
Qed.

Lemma first_char_differs (s t : string) (c d : ascii) :
  c <> d -> first_char_is s c = true -> first_char_is t d = true ->
  String.eqb s t = false.
Proof.
  intros Hcd Hs Ht. apply String.eqb_neq. intros ->.
  destruct t as [|c' t]; [discriminate|]. cbn in *.
  apply Ascii.eqb_eq in Hs, Ht. congruence.
Qed.

(** A first level that merely begins with a wildcard character, without
    being one, can never equal the first level of a [$] topic: the
    level-by-level comparison already rejects the pair. *)
Lemma wildcard_char_rejects_dollar levels (topic : string) :
  starts_with_wildcard levels = true ->
  first_level_wildcard levels = false ->
  first_char_is topic "$" = true ->
  match_levels levels (Split topic) = false.
Proof.
  destruct levels as [|l ls]; [discriminate|]. cbn.
  intros Hstart Hlit Hdollar.
  apply orb_false_elim in Hlit as [Hplus Hsharp].
  destruct (Split_first_char topic "$"%char) as (t & ts & -> & Ht);
    [discriminate|exact Hdollar|].
  rewrite Hsharp, Hplus. cbn.
  assert (Hlt : String.eqb l t = false).
  { apply orb_true_iff in Hstart as [Hl|Hl];
      eapply first_char_differs; try exact Hl; try exact Ht; discriminate. }
  rewrite Hlt. reflexivity.
Qed.

(** C5: a filter whose first character, after a [$share/<group>/] prefix is
    stripped, is [+] or [#] matches no topic that begins with [$]; a
    filter whose first level is not a wildcard is matched against every
    topic, the [$] ones included, by the level-by-level comparison
    alone. *)
Theorem wildcard_filters_exclude_dollar_topics :
  (forall filter topic : string,
     starts_with_wildcard (routeSplit filter) = true ->
     first_char_is topic "$" = true ->
     routeIncludesTopic filter topic = false)
  /\ (forall filter topic : string,
        first_level_wildcard (routeSplit filter) = false ->
        routeIncludesTopic filter topic =
        match_levels (routeSplit filter) (Split topic)).
Proof.
  split; intros filter topic.
  - intros Hstart Hdollar. unfold routeIncludesTopic.
    rewrite Hstart, Hdollar. reflexivity.
  - intros Hlit. unfold routeIncludesTopic.
    destruct (starts_with_wildcard (routeSplit filter)) eqn:Hstart;
      [|reflexivity].
    destruct (first_char_is topic "$") eqn:Hdollar; [|reflexivity].
    cbn. symmetry. apply wildcard_char_rejects_dollar; assumption.
Qed.

Lemma wildcard_filters_exclude_dollar_topics_witness :
  (starts_with_wildcard (routeSplit "$share/group/#") = true
   /\ first_char_is "$vendor/this/is/shared" "$" = true
   /\ routeIncludesTopic "$share/group/#" "$vendor/this/is/shared" = false)
  /\ (first_level_wildcard (routeSplit "$sys/+/temp/+") = false
      /\ routeIncludesTopic "$sys/+/temp/+" "$sys/gauge/temp/25" =
         match_levels (routeSplit "$sys/+/temp/+")
           (Split "$sys/gauge/temp/25")
      /\ routeIncludesTopic "$sys/+/temp/+" "$sys/gauge/temp/25" = true).
Proof.
  split.
  - split; [reflexivity|]. split; [reflexivity|].
    apply (proj1 wildcard_filters_exclude_dollar_topics); reflexivity.
  - split; [reflexivity|]. split; [|reflexivity].
    apply (proj2 wildcard_filters_exclude_dollar_topics); reflexivity.
Defined.

(** The model agrees with every row of the router's test tables. *)
Lemma router_tests_pass :
  forallb passes wildcard_filter_cases = true
  /\ forallb passes match_cases = true.
Proof. split; vm_compute; reflexivity. Qed.

End RouterClaims.

(** * Properties of the keepalive loop *)

Section KeepaliveClaims.

Import ping.
Local Open Scope Z_scope.

Variable o : options.

Lemma pings_app acts acts' :
  pings (acts ++ acts') = (pings acts + pings acts')%nat.
Proof. unfold pings. rewrite List.filter_app, length_app. reflexivity. Qed.

Lemma losses_app acts acts' :
  losses (acts ++ acts') = (losses acts + losses acts')%nat.
Proof. unfold losses. rewrite List.filter_app, length_app. reflexivity. Qed.

(** While the flag is set the first [if] does nothing. *)
Lemma probe_outstanding r c pingSent :
  pingOutstanding c <> 0 -> probe o r c pingSent = (c, pingSent, []).
Proof.
  intros Hset. unfold probe.
  destruct (Z.eqb_spec (pingOutstanding c) 0) as [|_]; [contradiction|].
  destruct (_ || _); reflexivity.
Qed.

(** The first [if] sends at most one PINGREQ, declares nothing lost, and
    when it sends it leaves the flag at 1 and stamps [pingSent]. *)
Lemma probe_sends r c pingSent c' pingSent' acts :
  probe o r c pingSent = (c', pingSent', acts) ->
  losses acts = 0%nat
  /\ (acts = [] /\ c' = c /\ pingSent' = pingSent
      \/ acts = [SendPingreq (atPingSent r)] /\ pingOutstanding c = 0
         /\ pingOutstanding c' = 1 /\ pingSent' = Some (atPingSent r)).
Proof.
  unfold probe.
  destruct (_ || _); [|intros [= <- <- <-]; auto].
  destruct (Z.eqb_spec (pingOutstanding c) 0) as [Hz|_];
    intros [= <- <- <-]; cbn; auto 10.
Qed.

(** No PINGREQ leaves the loop for as long as the flag stays set. *)
Lemma no_ping_while_outstanding events :
  forall c pingSent,
    pingOutstanding c <> 0 ->
    forallb (fun e => negb (is_PingrespReceived e)) events = true ->
    pings (keepalive_loop o events c pingSent).1.1 = 0%nat.
Proof.
  induction events as [|e events IH]; intros c pingSent Hset Hev;
    [reflexivity|].
  cbn in Hev. apply andb_true_iff in Hev as [He Hev].
  apply negb_true_iff in He.
  destruct e as [|r|t|t|t]; cbn [keepalive_loop]; try discriminate He.
  - reflexivity.
  - unfold tick. rewrite probe_outstanding by assumption.
    destruct (timedOut o r c pingSent); [reflexivity|].
    specialize (IH c pingSent Hset Hev).
    destruct (keepalive_loop o events c pingSent) as [[acts st] c'].
    exact IH.
  - apply IH; [|assumption]. assumption.
  - apply IH; [|assumption]. assumption.
Qed.

(** The loop calls [internalConnLost] at most once, and exactly when it
    returns through that branch. *)
Lemma lost_at_most_once events :
  forall c pingSent,
    (losses (keepalive_loop o events c pingSent).1.1 <= 1)%nat
    /\ (losses (keepalive_loop o events c pingSent).1.1 = 1%nat <->
        (keepalive_loop o events c pingSent).1.2 = Lost).
Proof.
  induction events as [|e events IH]; intros c pingSent.
  - cbn. split; [lia|]. split; [lia|discriminate].
  - destruct e as [|r|t|t|t]; cbn [keepalive_loop]; try apply IH.
    + cbn. split; [lia|]. split; [lia|discriminate].
    + unfold tick.
      destruct (probe o r c pingSent) as [[c' pingSent'] acts] eqn:Hprobe.
      apply probe_sends in Hprobe as [Hno _].
      destruct (timedOut o r c' pingSent').
      * cbn [fst snd]. rewrite losses_app, Hno. cbn.
        split; [lia|]. split; auto.
      * specialize (IH c' pingSent').
        destruct (keepalive_loop o events c' pingSent') as [[acts' st] c''].
        cbn [fst snd] in *. rewrite losses_app, Hno. exact IH.
Qed.

(** A pass of the ticker case that finds the flag set and the timeout
    elapsed ends the loop with the connection declared lost, however many
    earlier passes and stamps of the timestamps came first. *)
Lemma timeout_declares_lost events :
  forall r rest c t0,
    0 < pingOutstanding c ->
    forallb (fun e => negb (is_Stop e || is_PingrespReceived e)) events
      = true ->
    PingTimeout o <= atSincePingSent r - t0 ->
    (keepalive_loop o (events ++ Tick r :: rest) c (Some t0)).1
    = ([ConnLost], Lost).
Proof.
  induction events as [|e events IH]; intros r rest c t0 Hset Hev Hlate.
  - cbn [app keepalive_loop]. unfold tick.
    rewrite probe_outstanding by lia. unfold timedOut. cbn.
    destruct (Z.ltb_spec 0 (pingOutstanding c)) as [_|]; [|lia].
    destruct (Z.leb_spec (PingTimeout o) (atSincePingSent r - t0)) as [_|];
      [|lia].
    reflexivity.
  - cbn in Hev. apply andb_true_iff in Hev as [He Hev].
    apply negb_true_iff, orb_false_elim in He as [Hstop Hresp].
    destruct e as [|r'|t|t|t]; cbn [app keepalive_loop];
      try discriminate.
    + unfold tick. rewrite probe_outstanding by lia.
      destruct (timedOut o r' c (Some t0)); [reflexivity|].
      specialize (IH r rest c t0 Hset Hev Hlate).
      destruct (keepalive_loop o (events ++ Tick r :: rest) c (Some t0))
        as [[acts st] c'].
      exact IH.
    + apply IH; assumption.
    + apply IH; assumption.
Qed.

(** C7, amended: a pass that sends a PINGREQ leaves the flag set, and no
    further PINGREQ is sent while the flag stays set; when a pass through
    the ticker case finds the flag still set and the probe-response timeout
    elapsed since the send, and no stop signal came first, the loop
    declares the connection lost and returns; in every run the connection
    is declared lost at most once, and exactly when the loop returns that
    way. A PINGRESP that clears the flag after the timeout but before the
    next pass is accepted. *)
Theorem keepalive_probe_then_timeout :
  (forall r c pingSent c' pingSent' acts returns,
     tick o r c pingSent = (c', pingSent', acts, returns) ->
     pings acts = 1%nat ->
     pingOutstanding c' = 1 /\ pingSent' = Some (atPingSent r))
  /\ (forall events c pingSent,
        pingOutstanding c <> 0 ->
        forallb (fun e => negb (is_PingrespReceived e)) events = true ->
        pings (keepalive_loop o events c pingSent).1.1 = 0%nat)
  /\ (forall events r rest c t0,
        0 < pingOutstanding c ->
        forallb (fun e => negb (is_Stop e || is_PingrespReceived e)) events
          = true ->
        PingTimeout o <= atSincePingSent r - t0 ->
        (keepalive_loop o (events ++ Tick r :: rest) c (Some t0)).1
        = ([ConnLost], Lost))
  /\ (forall events c pingSent,
        (losses (keepalive_loop o events c pingSent).1.1 <= 1)%nat
        /\ (losses (keepalive_loop o events c pingSent).1.1 = 1%nat <->
            (keepalive_loop o events c pingSent).1.2 = Lost)).
Proof.
  split; [|split; [|split]].
  - intros r c pingSent c' pingSent' acts returns. unfold tick.
    destruct (probe o r c pingSent) as [[c1 ps1] acts1] eqn:Hprobe.
    apply probe_sends in Hprobe as [_ Hprobe].
    destruct (timedOut o r c1 ps1); intros [= <- <- <- <-] Hone;
      try rewrite pings_app in Hone;
      destruct Hprobe as [(-> & _ & _)|(_ & _ & Hflag & Hstamp)];
      try discriminate Hone; auto.
  - intros events. apply no_ping_while_outstanding.
  - intros events. apply timeout_declares_lost.
  - intros events. apply lost_at_most_once.
Qed.

End KeepaliveClaims.

Section KeepaliveRuns.

Import ping.
Local Open Scope Z_scope.

(** C7, as stated, fails: no PINGRESP clears the flag within the 7 s
    timeout of the PINGREQ stamped at 30 s, the ticker fires twice after
    the deadline, and yet the connection is never declared lost: the late
    PINGRESP at 38 s is accepted and the loop keeps running. *)
Lemma late_pingresp_not_declared_lost :
  let sent := 30 * Second + 3000 in
  (keepalive o30 late_pingresp idle).1
    = ([SendPingreq sent], Running)
  /\ answered_in_time o30 late_pingresp sent = false
  /\ deadline_ticked o30 late_pingresp sent = true
  /\ losses (keepalive o30 late_pingresp idle).1.1 = 0%nat.
Proof. vm_compute. repeat split. Qed.

Lemma keepalive_probe_then_timeout_witness :
  let c := {| lastSent := 30 * Second + 2000; lastReceived := 0;
              pingOutstanding := 1 |} in
  let sent := 30 * Second + 3000 in
  (tick o30 (pass (30 * Second)) idle None).1.1.1 = c
  /\ pings (keepalive_loop o30 no_pingresp c (Some sent)).1.1 = 0%nat
  /\ (keepalive_loop o30
        (no_pingresp ++ Tick (pass (40 * Second)) :: [Tick (pass 45)])
        c (Some sent)).1
     = ([ConnLost], Lost).
Proof.
  intros c sent.
  assert (Hset : 0 < pingOutstanding c) by reflexivity.
  assert (Hnz : pingOutstanding c <> 0) by discriminate.
  assert (Hquiet :
            forallb (fun e => negb (is_Stop e || is_PingrespReceived e))
              no_pingresp = true) by reflexivity.
  assert (Hnoresp :
            forallb (fun e => negb (is_PingrespReceived e)) no_pingresp
            = true) by reflexivity.
  assert (Hlate : PingTimeout o30
                  <= atSincePingSent (pass (40 * Second)) - sent)
    by (vm_compute; discriminate).
  split; [reflexivity|]. split.
  - exact (proj1 (proj2 (keepalive_probe_then_timeout o30))
             no_pingresp c (Some sent) Hnz Hnoresp).
  - exact (proj1 (proj2 (proj2 (keepalive_probe_then_timeout o30)))
             no_pingresp (pass (40 * Second)) [Tick (pass 45)] c sent
             Hset Hquiet Hlate).
Defined.

End KeepaliveRuns.

(** * Further properties of the remaining-length codec *)

Section RemainingLengthExtras.

Import packets.
Local Open Scope Z_scope.

(** X1: every length that fits four bytes, that is every [L] in
    [0, 2^28), written by [encodeLength] and followed by anything, is read
    back by [decodeLength], which stops exactly where the encoding ends. *)
Theorem remaining_length_round_trip (L : Z) (rest : Reader) :
  0 <= L < 268435456 ->
  decodeLength (encodeLength L ++ rest) = Ok (L, rest).
Proof. apply decodeLength_encodeLength. Qed.

Lemma remaining_length_round_trip_witness :
  0 <= 321 < 268435456
  /\ decodeLength (encodeLength 321 ++ [48; 0]) = Ok (321, [48; 0]).
Proof.
  assert (H : 0 <= 321 < 268435456) by lia.
  split; [exact H|]. exact (remaining_length_round_trip 321 [48; 0] H).
Defined.

Lemma encodeLength_nonempty L : 0 <= L -> (1 <= length (encodeLength L))%nat.
Proof.
  intros HL. destruct (Z_lt_le_dec L 128).
  - rewrite encodeLength_small by lia. cbn. lia.
  - rewrite encodeLength_step by lia. cbn. lia.
Qed.

(** X2: [encodeLength] writes the shortest encoding: a non-negative
    length takes at most [n + 1] bytes exactly when it is below
    [2^(7(n+1))]. *)
Theorem encodeLength_length (n : nat) :
  forall L, 0 <= L ->
    ((length (encodeLength L) <= S n)%nat <-> L < 2 ^ (7 * Z.of_nat (S n))).
Proof.
  induction n as [|n IH]; intros L HL.
  - change (2 ^ (7 * Z.of_nat 1)) with 128.
    destruct (Z_lt_le_dec L 128) as [Hs|Hb].
    + rewrite encodeLength_small by lia. cbn. split; intros; lia.
    + rewrite encodeLength_step by lia. cbn [length].
      pose proof (encodeLength_nonempty (L / 128) ltac:(apply Z.div_pos; lia)).
      split; intros; lia.
  - assert (Hpow : 2 ^ (7 * Z.of_nat (S (S n)))
                   = 128 * 2 ^ (7 * Z.of_nat (S n))).
    { replace (7 * Z.of_nat (S (S n))) with (7 + 7 * Z.of_nat (S n)) by lia.
      rewrite Z.pow_add_r by lia. reflexivity. }
    assert (Hpos : 0 < 2 ^ (7 * Z.of_nat (S n)))
      by (apply Z.pow_pos_nonneg; lia).
    destruct (Z_lt_le_dec L 128) as [Hs|Hb].
    + rewrite encodeLength_small by lia. cbn [length]. split; intros; lia.
    + rewrite encodeLength_step by lia. cbn [length].
      specialize (IH (L / 128) ltac:(apply Z.div_pos; lia)).
      rewrite Hpow. split; intros H.
      * assert (Hq : L / 128 < 2 ^ (7 * Z.of_nat (S n)))
          by (apply IH; lia).
        pose proof (Z.div_mod L 128 ltac:(lia)).
        pose proof (Z.mod_pos_bound L 128 ltac:(lia)). nia.
      * assert (Hq : L / 128 < 2 ^ (7 * Z.of_nat (S n)))
          by (apply Z.div_lt_upper_bound; lia).
        apply IH in Hq. lia.
Qed.

Lemma encodeLength_length_witness :
  0 <= 16384
  /\ ((length (encodeLength 16384) <= 2)%nat <-> 16384 < 2 ^ (7 * Z.of_nat 2)).
Proof.
  assert (H : 0 <= 16384) by lia.
  split; [exact H|]. exact (encodeLength_length 1 16384 H).
Defined.

(** X3: the bytes [encodeLength] writes for a non-negative length are all
    in [0, 256); every byte but the last has the continuation bit set and
    the last one has it clear. *)
Theorem encodeLength_continuation_bits (L : Z) :
  0 <= L ->
  exists init last,
    encodeLength L = init ++ [last]
    /\ Forall (fun b => 128 <= b < 256) init
    /\ 0 <= last < 128.
Proof.
  intros HL.
  assert (Hgen : forall n : nat, forall L, 0 <= L < Z.of_nat n ->
            exists init last,
              encodeLength L = init ++ [last]
              /\ Forall (fun b => 128 <= b < 256) init
              /\ 0 <= last < 128).
  { clear L HL. induction n as [|n IH]; intros L HL; [lia|].
    destruct (Z_lt_le_dec L 128) as [Hs|Hb].
    - exists [], L. rewrite encodeLength_small by lia.
      split; [reflexivity|]. split; [constructor|lia].
    - destruct (IH (L / 128)) as (init & last & Henc & Hinit & Hlast).
      { split; [apply Z.div_pos; lia|].
        apply Z.div_lt_upper_bound; lia. }
      exists ((L mod 128 + 128) :: init), last.
      rewrite encodeLength_step, Henc by lia.
      split; [reflexivity|]. split; [|assumption].
      constructor; [|assumption].
      pose proof (Z.mod_pos_bound L 128 ltac:(lia)). lia. }
  apply (Hgen (Z.to_nat (L + 1))). lia.
Qed.

Lemma encodeLength_continuation_bits_witness :
  0 <= 2097152
  /\ exists init last,
       encodeLength 2097152 = init ++ [last]
       /\ Forall (fun b => 128 <= b < 256) init
       /\ 0 <= last < 128.
Proof.
  assert (H : 0 <= 2097152) by lia.
  split; [exact H|]. exact (encodeLength_continuation_bits 2097152 H).
Defined.

(** X4: a length in [2^28, 2^35) does not survive the round trip:
    [encodeLength] writes five bytes, [decodeLength] stops after four,
    returns the length modulo [2^28] with no error and leaves the fifth
    byte in the stream. *)
Theorem remaining_length_overflow (L : Z) (rest : Reader) :
  268435456 <= L < 34359738368 ->
  decodeLength (encodeLength L ++ rest)
  = Ok (L mod 268435456, L / 268435456 :: rest).
Proof.
  intros HL.
  pose proof (Z.div_mod L 128 ltac:(lia)) as E0.
  pose proof (Z.mod_pos_bound L 128 ltac:(lia)) as B0.
  pose proof (Z.div_mod (L / 128) 128 ltac:(lia)) as E1.
  pose proof (Z.mod_pos_bound (L / 128) 128 ltac:(lia)) as B1.
  pose proof (Z.div_mod (L / 128 / 128) 128 ltac:(lia)) as E2.
  pose proof (Z.mod_pos_bound (L / 128 / 128) 128 ltac:(lia)) as B2.
  pose proof (Z.div_mod (L / 128 / 128 / 128) 128 ltac:(lia)) as E3.
  pose proof (Z.mod_pos_bound (L / 128 / 128 / 128) 128 ltac:(lia)) as B3.
  set (q1 := L / 128) in *. set (q2 := q1 / 128) in *.
  set (q3 := q2 / 128) in *. set (q4 := q3 / 128) in *.
  rewrite (encodeLength_step L) by lia. fold q1.
  rewrite (encodeLength_step q1) by lia. fold q2.
  rewrite (encodeLength_step q2) by lia. fold q3.
  rewrite (encodeLength_step q3) by lia. fold q4.
  rewrite (encodeLength_small q4) by lia.
  cbn [app]. unfold decodeLength.
  rewrite decodeLength_loop_continue
    by (try rewrite land_128_cont by lia; cbn; lia).
  rewrite decodeLength_loop_continue
    by (try rewrite land_128_cont by lia;
        try rewrite land_127_cont by lia; cbn; lia).
  rewrite decodeLength_loop_continue
    by (try rewrite land_128_cont by lia;
        try rewrite !land_127_cont by lia; cbn; lia).
  rewrite decodeLength_loop_continue
    by (try rewrite land_128_cont by lia;
        try rewrite !land_127_cont by lia; cbn; lia).
  rewrite decodeLength_loop_stop by lia.
  rewrite !land_127_cont by lia.
  clearbody q1 q2 q3 q4. f_equal. f_equal.
  - apply Z.mod_unique with q4; cbn; lia.
  - f_equal. apply Z.div_unique with
      (L mod 128 + q1 mod 128 * 128 + q2 mod 128 * 16384
       + q3 mod 128 * 2097152); lia.
Qed.

Lemma remaining_length_overflow_witness :
  268435456 <= 268435457 < 34359738368
  /\ decodeLength (encodeLength 268435457 ++ [9])
     = Ok (268435457 mod 268435456, 268435457 / 268435456 :: [9]).
Proof.
  assert (H : 268435456 <= 268435457 < 34359738368) by lia.
  split; [exact H|]. exact (remaining_length_overflow 268435457 [9] H).
Defined.

End RemainingLengthExtras.

Section DecodeLengthExtras.

Import packets.
Local Open Scope Z_scope.

(** The loop, entered with room for [k] more bytes. *)
Lemma decodeLength_loop_value (k : nat) :
  forall r acc m v r',
    m = 28 - 7 * Z.of_nat k -> (k <= 4)%nat -> 0 <= acc < 2 ^ m ->
    decodeLength_loop r acc m = Ok (v, r') ->
    exists digits,
      r = digits ++ r'
      /\ (length digits <= k)%nat
      /\ (0 < k -> 1 <= length digits)%nat
      /\ v = acc + 2 ^ m * lengthValue digits
      /\ 0 <= v < 268435456.
Proof.
  induction k as [|k IH]; intros r acc m v r' Hm Hk Hacc Hdec.
  - rewrite decodeLength_loop_stop in Hdec by lia.
    injection Hdec as <- <-. exists []. cbn [app length lengthValue].
    replace m with 28 in Hacc by lia. change (2 ^ 28) with 268435456 in Hacc.
    repeat split; lia.
  - assert (Hm21 : 0 <= m <= 21) by lia.
    assert (Hpos : 0 < 2 ^ m) by (apply Z.pow_pos_nonneg; lia).
    assert (Hpow : 2 ^ (m + 7) = 2 ^ m * 128)
      by (rewrite Z.pow_add_r by lia; reflexivity).
    assert (Hcap : 2 ^ (m + 7) <= 268435456).
    { change 268435456 with (2 ^ 28). apply Z.pow_le_mono_r; lia. }
    destruct r as [|digit r].
    { cbn in Hdec. destruct (Z.ltb_spec m 27); [discriminate|lia]. }
    pose proof (land_127_range digit) as Hd.
    destruct (Z.eq_dec (Z.land digit 128) 0) as [Hlast|Hcont].
    + rewrite decodeLength_loop_last in Hdec by assumption.
      injection Hdec as <- <-. exists [digit].
      cbn [app length lengthValue]. repeat split; try lia; nia.
    + rewrite decodeLength_loop_continue in Hdec by assumption.
      apply IH in Hdec as (digits & -> & Hlen & _ & -> & Hv);
        [|lia|lia|rewrite Hpow; nia].
      exists (digit :: digits). cbn [app length lengthValue].
      repeat split; try lia; try (rewrite Hpow; ring).
Qed.

(** X5: when [decodeLength] succeeds it has taken between one and four
    bytes off the stream, the value is the one their low seven bits spell,
    least significant group first, and it lies in [0, 2^28). *)
Theorem decodeLength_value (r : Reader) (v : Z) (r' : Reader) :
  decodeLength r = Ok (v, r') ->
  exists digits,
    r = digits ++ r'
    /\ (1 <= length digits <= 4)%nat
    /\ v = lengthValue digits
    /\ 0 <= v < 268435456.
Proof.
  intros Hdec.
  apply (decodeLength_loop_value 4) in Hdec
    as (digits & Hr & Hlen & Hne & Hv & Hb); [|reflexivity|lia|cbn; lia].
  exists digits. change (2 ^ 0) with 1 in Hv.
  repeat split; try assumption; lia.
Qed.

Lemma decodeLength_value_witness :
  decodeLength [193; 2; 48; 0] = Ok (321, [48; 0])
  /\ exists digits,
       [193; 2; 48; 0] = digits ++ [48; 0]
       /\ (1 <= length digits <= 4)%nat
       /\ 321 = lengthValue digits
       /\ 0 <= 321 < 268435456.
Proof.
  assert (H : decodeLength [193; 2; 48; 0] = Ok (321, [48; 0]))
    by reflexivity.
  split; [exact H|]. exact (decodeLength_value _ _ _ H).
Defined.

Lemma decodeLength_loop_error (k : nat) :
  forall r acc m e,
    m = 28 - 7 * Z.of_nat k -> (k <= 4)%nat -> 0 <= acc < 2 ^ m ->
    (decodeLength_loop r acc m = Err e <->
     e = EOF /\ (length r < k)%nat
     /\ Forall (fun digit => Z.land digit 128 <> 0) r).
Proof.
  induction k as [|k IH]; intros r acc m e Hm Hk Hacc.
  - rewrite decodeLength_loop_stop by lia. split; [discriminate|].
    intros (_ & Hlen & _). lia.
  - assert (Hm21 : 0 <= m <= 21) by lia.
    assert (Hpos : 0 < 2 ^ m) by (apply Z.pow_pos_nonneg; lia).
    assert (Hpow : 2 ^ (m + 7) = 2 ^ m * 128)
      by (rewrite Z.pow_add_r by lia; reflexivity).
    destruct r as [|digit r].
    { cbn. destruct (Z.ltb_spec m 27); [|lia]. split.
      - intros [= <-]. repeat split; [lia|constructor].
      - intros (-> & _). reflexivity. }
    pose proof (land_127_range digit) as Hd.
    destruct (Z.eq_dec (Z.land digit 128) 0) as [Hlast|Hcont].
    + rewrite decodeLength_loop_last by assumption. split; [discriminate|].
      intros (_ & _ & Hall). apply Forall_inv in Hall. contradiction.
    + rewrite decodeLength_loop_continue by assumption.
      rewrite IH; [|lia|lia|rewrite Hpow; nia].
      cbn [length]. split; intros (He & Hlen & Hall); repeat split;
        try assumption; try lia.
      * constructor; assumption.
      * apply Forall_inv_tail in Hall. exact Hall.
Qed.

(** X6: [decodeLength] fails only by running out of stream inside the
    length field: it returns an error, always [io.EOF], exactly when the
    stream holds fewer than four bytes and every one of them has the
    continuation bit set. *)
Theorem decodeLength_error (r : Reader) (e : error) :
  decodeLength r = Err e <->
  e = EOF /\ (length r < 4)%nat
  /\ Forall (fun digit => Z.land digit 128 <> 0) r.
Proof. apply (decodeLength_loop_error 4); [reflexivity|lia|cbn; lia]. Qed.

End DecodeLengthExtras.

(** * Further properties of the field codec *)

Section FieldExtras.

Import packets.
Local Open Scope Z_scope.

(** X7: a fixed header with a four-bit message type, a two-bit QoS and a
    remaining length below [2^28] is read back unchanged by [unpack] from
    the bytes [pack] wrote, whatever follows them. *)
Theorem fixed_header_round_trip (fh : FixedHeader) (rest : Reader) :
  0 <= MessageType fh < 16 -> 0 <= Qos fh < 4 ->
  0 <= RemainingLength fh < 268435456 ->
  unpack (nth 0 (pack fh) 0) (tl (pack fh) ++ rest) = Ok (fh, rest).
Proof. apply unpack_pack. Qed.

Lemma fixed_header_round_trip_witness :
  let fh := {| MessageType := Publish; Dup := true; Qos := 2;
               Retain := true; RemainingLength := 300 |} in
  pack fh = [61; 172; 2]
  /\ unpack (nth 0 (pack fh) 0) (tl (pack fh) ++ [7]) = Ok (fh, [7]).
Proof.
  intros fh. split; [reflexivity|].
  apply (fixed_header_round_trip fh [7]); vm_compute;
    (split; [discriminate|reflexivity]).
Defined.

(** With the low [k] bits of the left operand clear, [|] adds. *)
Lemma lor_shiftl_low hi lo k :
  0 <= k -> 0 <= lo < 2 ^ k ->
  Z.lor (Z.shiftl hi k) lo = hi * 2 ^ k + lo.
Proof.
  intros Hk Hlo. rewrite Z.shiftl_mul_pow2 by lia.
  rewrite <- Z.lxor_lor, <- Z.add_nocarry_lxor; try reflexivity.
  all: apply Z.bits_inj'; intros n Hn; rewrite Z.land_spec, Z.bits_0.
  all: destruct (Z_lt_le_dec n k) as [Hlt|Hge].
  all: try (rewrite Z.mul_pow2_bits_low by lia; reflexivity).
  all: rewrite <- (Z.mod_small lo (2 ^ k)) by lia.
  all: rewrite Z.mod_pow2_bits_high by lia; apply andb_false_r.
Qed.

Lemma encodeUint16_bytes n :
  0 <= n < 65536 -> encodeUint16 n = [n / 256; n mod 256].
Proof.
  intros Hn. rewrite <- (encodeUint16_big_endian n) by lia.
  unfold to_uint16. rewrite Z.mod_small by lia. reflexivity.
Qed.

Lemma decodeUint16_encodeUint16 n rest :
  0 <= n < 65536 -> decodeUint16 (encodeUint16 n ++ rest) = Ok (n, rest).
Proof.
  intros Hn. rewrite encodeUint16_bytes by assumption.
  unfold decodeUint16. cbn. unfold BigEndianUint16.
  pose proof (Z.mod_pos_bound n 256 ltac:(lia)).
  rewrite lor_shiftl_low by (cbn; lia).
  f_equal. f_equal. change (2 ^ 8) with 256.
  pose proof (Z.div_mod n 256 ltac:(lia)). lia.
Qed.

(** X8: every 16-bit value written by [encodeUint16] is read back by
    [decodeUint16], which takes exactly the two bytes. *)
Theorem uint16_round_trip (n : Z) (rest : Reader) :
  0 <= n < 65536 -> decodeUint16 (encodeUint16 n ++ rest) = Ok (n, rest).
Proof. apply decodeUint16_encodeUint16. Qed.

Lemma uint16_round_trip_witness :
  0 <= 4660 < 65536
  /\ encodeUint16 4660 = [18; 52]
  /\ decodeUint16 (encodeUint16 4660 ++ [1]) = Ok (4660, [1]).
Proof.
  assert (H : 0 <= 4660 < 65536) by lia.
  split; [exact H|]. split; [reflexivity|].
  exact (uint16_round_trip 4660 [1] H).
Defined.

(** A [Read] of exactly what the buffer starts with. *)
Lemma BufferRead_app (field rest : Reader) :
  BufferRead (field ++ rest) (length field) = Ok (field, rest).
Proof.
  destruct field as [|x field]; [reflexivity|].
  pose proof (take_app_length (x :: field) rest) as Htake.
  pose proof (drop_app_length (x :: field) rest) as Hdrop.
  cbn [length app] in *. unfold BufferRead. rewrite Htake, Hdrop.
  reflexivity.
Qed.

(** What [encodeBytes] writes, in terms of the field it keeps. *)
Lemma encodeBytes_kept (field : list Z) :
  let kept := firstn (Z.to_nat 65535) field in
  encodeBytes field = encodeUint16 (len kept) ++ kept
  /\ 0 <= len kept <= 65535.
Proof.
  cbn zeta. unfold encodeBytes.
  assert (Hk : 0 <= len (firstn (Z.to_nat 65535) field) <= 65535).
  { unfold len. rewrite length_firstn. lia. }
  destruct (Z.ltb_spec 65535 (len field)) as [Hlong|Hshort].
  - unfold to_uint16. rewrite Z.mod_small by lia. split; [reflexivity|lia].
  - rewrite firstn_all2 by (unfold len in Hshort; lia).
    unfold to_uint16. rewrite Z.mod_small by (unfold len in *; lia).
    split; [reflexivity|unfold len in *; lia].
Qed.

(** X9: [decodeBytes] reads back what [encodeBytes] wrote and stops where
    the field ends: the whole field when it has at most 65535 bytes, its
    first 65535 bytes otherwise. The empty field round-trips too. *)
Theorem bytes_field_round_trip (field : list Z) (rest : Reader) :
  decodeBytes (encodeBytes field ++ rest)
  = Ok (firstn (Z.to_nat 65535) field, rest)
  /\ (len field <= 65535 -> firstn (Z.to_nat 65535) field = field).
Proof.
  split.
  - destruct (encodeBytes_kept field) as [-> Hk].
    set (kept := firstn (Z.to_nat 65535) field) in *.
    unfold decodeBytes. rewrite <- app_assoc.
    rewrite decodeUint16_encodeUint16 by lia.
    unfold len. rewrite Nat2Z.id, BufferRead_app, Nat.sub_diag.
    cbn [repeat]. rewrite app_nil_r. reflexivity.
  - intros Hlen. apply firstn_all2. unfold len in Hlen. lia.
Qed.

(** X10: a field cut short by the end of the buffer is not reported:
    when the prefix announces [n] bytes and fewer, but at least one,
    follow, [decodeBytes] returns those bytes padded with zeros to length
    [n] and no error; only when nothing at all follows a non-zero prefix
    does it return [io.EOF]. *)
Theorem decodeBytes_short_body (n : Z) (avail : list Z) :
  0 < n < 65536 -> len avail < n ->
  decodeBytes (encodeUint16 n ++ avail)
  = match avail with
    | [] => Err EOF
    | _ :: _ =>
        Ok (avail ++ repeat 0 (Z.to_nat n - length avail)%nat, [])
    end.
Proof.
  intros Hn Hshort. unfold decodeBytes.
  rewrite decodeUint16_encodeUint16 by lia.
  destruct (Z.to_nat n) as [|k] eqn:Hk; [lia|].
  destruct avail as [|x avail]; [reflexivity|].
  unfold BufferRead.
  rewrite firstn_all2, skipn_all2 by (unfold len in Hshort; lia).
  reflexivity.
Qed.

Lemma decodeBytes_short_body_witness :
  0 < 5 < 65536 /\ len [104; 105] < 5
  /\ decodeBytes (encodeUint16 5 ++ [104; 105])
     = Ok ([104; 105] ++ repeat 0 (Z.to_nat 5 - length [104; 105])%nat, []).
Proof.
  assert (Hn : 0 < 5 < 65536) by lia.
  assert (Hs : len [104; 105] < 5) by (vm_compute; reflexivity).
  split; [exact Hn|]. split; [exact Hs|].
  exact (decodeBytes_short_body 5 [104; 105] Hn Hs).
Defined.

End FieldExtras.

(** * Further properties of [ReadPacket] *)

Section ReadPacketExtras.

Import packets.
Local Open Scope Z_scope.

Context {Fields : Type}.
Variable zeroFields : Fields.
Variable Unpack : ControlPacket Fields -> Reader ->
                  ControlPacket Fields * option error.

Lemma ReadPacket_cons (b : Z) (r : Reader) :
  ReadPacket zeroFields Unpack (b :: r) =
  match unpack b r with
  | Err e => (None, Some e)
  | Ok (fh, r2) =>
      match NewControlPacketWithHeader zeroFields fh with
      | Err e => (None, Some e)
      | Ok cp =>
          match ReadFull r2 (Z.to_nat (RemainingLength fh)) with
          | Err e => (None, Some e)
          | Ok (packetBytes, _) =>
              if negb (len packetBytes =? RemainingLength fh)
              then (None, Some ErrFailedToRead)
              else let (cp', err) := Unpack cp packetBytes in (Some cp', err)
          end
      end
  end.
Proof. reflexivity. Qed.

(** X11: [ReadPacket] never returns a [nil] packet together with a [nil]
    error: whenever the packet is [nil], the error says why. *)
Theorem ReadPacket_nil_packet_has_error (r : Reader) :
  (ReadPacket zeroFields Unpack r).1 = None ->
  (ReadPacket zeroFields Unpack r).2 <> None.
Proof.
  destruct r as [|b r]; [discriminate|].
  rewrite ReadPacket_cons.
  destruct (unpack b r) as [[fh r2]|e]; [|discriminate].
  destruct (NewControlPacketWithHeader zeroFields fh) as [cp|e];
    [|discriminate].
  destruct (ReadFull r2 _) as [[body r3]|e]; [|discriminate].
  destruct (negb _); [discriminate|].
  destruct (Unpack cp body) as [cp' err]. discriminate.
Qed.

(** X12: when the stream ends before the [RemainingLength] bytes the
    header announced, [ReadPacket] returns a [nil] packet and the read
    error: [io.EOF] if no body byte was there, [io.ErrUnexpectedEOF] if
    some were. The variant's [Unpack] is not run on a partial body. *)
Theorem ReadPacket_short_body
    (b : Z) (r r2 : Reader) (fh : FixedHeader) (cp : ControlPacket Fields) :
  unpack b r = Ok (fh, r2) ->
  NewControlPacketWithHeader zeroFields fh = Ok cp ->
  len r2 < RemainingLength fh ->
  ReadPacket zeroFields Unpack (b :: r) =
  (None, Some (match r2 with [] => EOF | _ :: _ => ErrUnexpectedEOF end)).
Proof.
  intros Hfh Hcp Hshort. rewrite ReadPacket_cons, Hfh, Hcp.
  unfold ReadFull, len in *.
  destruct (Z.to_nat (RemainingLength fh)) as [|n] eqn:Hn; [lia|].
  destruct r2 as [|x r2]; [reflexivity|].
  destruct (Nat.leb_spec (S n) (length (x :: r2))) as [Hle|_]; [lia|].
  reflexivity.
Qed.

(** X13: a first byte whose upper four bits are 0 or 15 is no packet
    type: once the remaining length has been read, [ReadPacket] returns a
    [nil] packet and the unsupported-type error, without looking at the
    body. *)
Theorem ReadPacket_unsupported_type (b L : Z) (r r2 : Reader) :
  0 <= b < 16 \/ 240 <= b < 256 ->
  decodeLength r = Ok (L, r2) ->
  ReadPacket zeroFields Unpack (b :: r) =
  (None, Some (ErrUnsupportedPacketType (Z.shiftr b 4))).
Proof.
  intros Hb Hlen. rewrite ReadPacket_cons. unfold unpack. rewrite Hlen.
  rewrite NewControlPacketWithHeader_unknown; [reflexivity|].
  cbn [MessageType]. unfold known_type.
  rewrite Z.shiftr_div_pow2 by lia. change (2 ^ 4) with 16.
  destruct Hb as [Hb|Hb].
  - rewrite Z.div_small by lia. lia.
  - assert (15 <= b / 16) by (apply Z.div_le_lower_bound; lia). lia.
Qed.

(** X14: reading a packet written as [pack fh] followed by a body of
    [RemainingLength fh] bytes hands [Unpack] a packet of the header's
    type carrying exactly [fh], and exactly the body; what [Unpack]
    returns is what [ReadPacket] returns. Bytes after the body are not
    consumed. *)
Theorem ReadPacket_pack
    (fh : FixedHeader) (k : PacketKind) (body rest : Reader) :
  type_of_kind k = MessageType fh -> 0 <= Qos fh < 4 ->
  RemainingLength fh = len body -> len body < 268435456 ->
  ReadPacket zeroFields Unpack (pack fh ++ body ++ rest) =
  (let (cp', err) :=
     Unpack {| kind := k; header := fh; fields := zeroFields |} body in
   (Some cp', err)).
Proof.
  intros Hk Hq HL Hbody.
  assert (Hpack : pack fh ++ body ++ rest
                  = nth 0 (pack fh) 0 :: (tl (pack fh) ++ body ++ rest))
    by reflexivity.
  rewrite Hpack, ReadPacket_cons.
  rewrite unpack_pack;
    [|pose proof (type_of_kind_known k) as Hknown;
      unfold known_type in Hknown; lia
     |assumption|unfold len in *; lia].
  assert (Hcp : NewControlPacketWithHeader zeroFields fh
                = Ok {| kind := k; header := fh; fields := zeroFields |}).
  { unfold NewControlPacketWithHeader. rewrite <- Hk.
    destruct k; reflexivity. }
  rewrite Hcp, HL. unfold len at 1. rewrite Nat2Z.id.
  assert (Hread : ReadFull (body ++ rest) (length body) = Ok (body, rest)).
  { pose proof (BufferRead_app body rest) as Hbuf.
    destruct body as [|x body]; [reflexivity|].
    unfold ReadFull. unfold BufferRead in Hbuf.
    cbn [length app] in *. rewrite length_app.
    destruct (Nat.leb_spec (S (length body))
                (S (length body + length rest))); [|lia].
    exact Hbuf. }
  rewrite Hread, Z.eqb_refl. reflexivity.
Qed.

End ReadPacketExtras.

Lemma ReadPacket_nil_packet_has_error_witness :
  (packets.ReadPacket 0%Z packets.UnpackMessageID [64; 2; 1]%Z).1 = None
  /\ (packets.ReadPacket 0%Z packets.UnpackMessageID [64; 2; 1]%Z).2 <> None.
Proof.
  assert (H : (packets.ReadPacket 0%Z packets.UnpackMessageID [64; 2; 1]%Z).1 = None)
    by reflexivity.
  split; [exact H|].
  exact (ReadPacket_nil_packet_has_error
           0%Z packets.UnpackMessageID [64; 2; 1]%Z H).
Defined.

Lemma ReadPacket_short_body_witness :
  packets.ReadPacket 0%Z packets.UnpackMessageID [64; 2; 1]%Z
  = (None, Some packets.ErrUnexpectedEOF).
Proof.
  apply (ReadPacket_short_body 0%Z packets.UnpackMessageID
           64%Z [2; 1]%Z [1]%Z
           {| packets.MessageType := 4; packets.Dup := false;
              packets.Qos := 0; packets.Retain := false;
              packets.RemainingLength := 2 |}
           {| packets.kind := packets.PubackPacket;
              packets.header :=
                {| packets.MessageType := 4; packets.Dup := false;
                   packets.Qos := 0; packets.Retain := false;
                   packets.RemainingLength := 2 |};
              packets.fields := 0%Z |}); reflexivity.
Defined.

Lemma ReadPacket_unsupported_type_witness :
  packets.ReadPacket 0%Z packets.UnpackMessageID [240; 0]%Z
  = (None, Some (packets.ErrUnsupportedPacketType (Z.shiftr 240 4))).
Proof.
  apply (ReadPacket_unsupported_type 0%Z packets.UnpackMessageID
           240%Z 0%Z [0]%Z []); [right; lia|reflexivity].
Defined.

Lemma ReadPacket_pack_witness :
  let fh := {| packets.MessageType := 4; packets.Dup := false;
               packets.Qos := 0; packets.Retain := false;
               packets.RemainingLength := 2 |} in
  packets.pack fh = [64; 2]%Z
  /\ packets.ReadPacket 0%Z packets.UnpackMessageID
       (packets.pack fh ++ [1; 2] ++ [99])%Z
     = (let (cp', err) :=
          packets.UnpackMessageID
            {| packets.kind := packets.PubackPacket; packets.header := fh;
               packets.fields := 0%Z |} [1; 2]%Z in
        (Some cp', err)).
Proof.
  intros fh. split; [reflexivity|].
  apply (ReadPacket_pack 0%Z packets.UnpackMessageID fh
           packets.PubackPacket [1; 2]%Z [99]%Z);
    vm_compute; try reflexivity; (split; [discriminate|reflexivity]).
Defined.

Section ConstructorExtras.

Import packets.
Local Open Scope Z_scope.

Context {Fields : Type}.
Variable zeroFields : Fields.

(** X15: the two constructors agree: rebuilding a packet from the header
    of the one [NewControlPacket] made gives that same packet back. *)
Theorem NewControlPacketWithHeader_of_new (t : Z) (p : ControlPacket Fields) :
  NewControlPacket zeroFields t = Some p ->
  NewControlPacketWithHeader zeroFields (header p) = Ok p.
Proof.
  intros Hnew.
  destruct (Z_le_gt_dec 1 t) as [Hlo|Hlo];
    [destruct (Z_le_gt_dec t 14) as [Hhi|Hhi]|].
  - destruct (known_type_kind t (conj Hlo Hhi)) as [k <-].
    destruct k; injection Hnew as <-; reflexivity.
  - rewrite NewControlPacket_unknown in Hnew by (unfold known_type; lia).
    discriminate.
  - rewrite NewControlPacket_unknown in Hnew by (unfold known_type; lia).
    discriminate.
Qed.

End ConstructorExtras.

Lemma NewControlPacketWithHeader_of_new_witness :
  packets.NewControlPacketWithHeader tt
    {| packets.MessageType := 8; packets.Dup := false; packets.Qos := 1;
       packets.Retain := false; packets.RemainingLength := 0 |}
  = packets.Ok
      {| packets.kind := packets.SubscribePacket;
         packets.header :=
           {| packets.MessageType := 8; packets.Dup := false;
              packets.Qos := 1; packets.Retain := false;
              packets.RemainingLength := 0 |};
         packets.fields := tt |}.
Proof.
  apply (NewControlPacketWithHeader_of_new tt packets.Subscribe
           {| packets.kind := packets.SubscribePacket;
              packets.header :=
                {| packets.MessageType := 8; packets.Dup := false;
                   packets.Qos := 1; packets.Retain := false;
                   packets.RemainingLength := 0 |};
              packets.fields := tt |}).
  reflexivity.
Defined.

(** * Further properties of the in-memory store *)

Section MemoryStoreExtras.

Import memstore.

Context {Packet : Type}.
Implicit Types (store : MemoryStore Packet) (m : option Packet).


(** X17: on an open store, whatever order [All] picks, it returns each
    key of the map exactly once and nothing else. *)
Theorem All_lists_each_key_once store (keys : list string) :
  opened store = true -> All_returns store keys ->
  NoDup keys
  /\ (forall k, k ∈ keys <-> is_Some (messages store !! k))
  /\ length keys = size (messages store).
Proof.
  intros Ho. unfold All_returns. rewrite Ho. cbn. intros Hperm.
  split; [|split].
  - rewrite Hperm. apply NoDup_fst_map_to_list.
  - intros k. rewrite Hperm, list_elem_of_fmap. split.
    + intros [[k' v] [-> Hin]]. apply elem_of_map_to_list in Hin. eauto.
    + intros [v Hv]. exists (k, v). split; [reflexivity|].
      apply elem_of_map_to_list. exact Hv.
  - rewrite Hperm, length_fmap. apply length_map_to_list.
Qed.



End MemoryStoreExtras.


Lemma All_lists_each_key_once_witness :
  let store := memstore.Put "o.1" (Some 7%Z)
                 (memstore.Open memstore.NewMemoryStore) in
  memstore.opened store = true
  /\ memstore.All_returns store ["o.1"%string]
  /\ NoDup ["o.1"%string]
  /\ length ["o.1"%string] = size (memstore.messages store).
Proof.
  intros store.
  assert (Ho : memstore.opened store = true) by reflexivity.
  assert (Hall : memstore.All_returns store ["o.1"%string]).
  { unfold memstore.All_returns. rewrite Ho. cbn [negb].
    unfold store, memstore.Put. cbn.
    rewrite insert_empty, map_to_list_singleton. reflexivity. }
  split; [exact Ho|]. split; [exact Hall|].
  pose proof (All_lists_each_key_once store _ Ho Hall) as (Hnd & _ & Hlen).
  split; [exact Hnd|exact Hlen].
Defined.



(** * Further properties of the ordered in-memory store *)

Section OrderedMemoryStoreExtras.

Import memstore_ordered.
Local Open Scope Z_scope.

Context {Packet : Type}.
Implicit Types (store : OrderedMemoryStore Packet) (m : option Packet).
Implicit Types (puts : list (Z * string * option Packet)).

Lemma ordered_Put_opened now key m store :
  opened (Put now key m store) = opened store.
Proof. unfold Put. destruct (opened store) eqn:Ho; cbn; congruence. Qed.

Lemma PutAll_snoc puts p store :
  PutAll (puts ++ [p]) store = Put p.1.1 p.1.2 p.2 (PutAll puts store).
Proof. unfold PutAll. rewrite fold_left_app. reflexivity. Qed.

Lemma PutAll_opened puts store :
  opened (PutAll puts store) = opened store.
Proof.
  induction puts as [|p puts IH] using rev_ind; [reflexivity|].
  rewrite PutAll_snoc, ordered_Put_opened. exact IH.
Qed.

(** The map after a run of [Put]s on a store opened empty: later entries
    shadow earlier ones. *)
Lemma PutAll_messages puts :
  messages (PutAll puts (Open NewOrderedMemoryStore))
  = list_to_map (rev (entry <$> puts)).
Proof.
  induction puts as [|p puts IH] using rev_ind; [reflexivity|].
  rewrite PutAll_snoc. unfold Put. rewrite PutAll_opened. cbn.
  rewrite IH, fmap_app, rev_app_distr. reflexivity.
Qed.

(** Among entries with strictly increasing timestamps, the timestamp
    identifies the entry. *)
Lemma increasing_ts_inj (l : list (Z * string)) (x y : Z * string) :
  StronglySorted Z.lt l.*1 -> x ∈ l -> y ∈ l -> x.1 = y.1 -> x = y.
Proof.
  induction l as [|a l IH]; cbn; intros Hs Hx Hy Heq.
  - apply elem_of_nil in Hx. contradiction.
  - apply StronglySorted_inv in Hs as [Hs Ha].
    rewrite Forall_forall in Ha.
    apply elem_of_cons in Hx as [->|Hx], Hy as [->|Hy].
    + reflexivity.
    + assert (a.1 < y.1) by (apply Ha, list_elem_of_fmap; eauto). lia.
    + assert (a.1 < x.1) by (apply Ha, list_elem_of_fmap; eauto). lia.
    + apply IH; assumption.
Qed.

Lemma increasing_sorted_by_ts (l : list (Z * string)) :
  StronglySorted Z.lt l.*1 -> sorted_by_ts l.
Proof.
  unfold sorted_by_ts. induction l as [|a l IH]; cbn; intros Hs.
  - constructor.
  - apply StronglySorted_inv in Hs as [Hs Ha]. constructor; [auto|].
    rewrite Forall_forall in Ha. apply Forall_forall. intros b Hb.
    unfold Before.
    assert (a.1 < b.1) by (apply Ha, list_elem_of_fmap; eauto). lia.
Qed.

(** What [All] returns after a run of [Put]s with distinct keys and
    strictly increasing clock readings. *)
Lemma PutAll_All puts (keys : list string) :
  NoDup puts.*1.*2 -> StronglySorted Z.lt puts.*1.*1 ->
  (All_returns (PutAll puts (Open NewOrderedMemoryStore)) keys
   <-> keys = puts.*1.*2).
Proof.
  intros Hnodup Hinc. unfold All_returns.
  rewrite PutAll_opened. cbn [opened Open negb].
  rewrite PutAll_messages.
  set (target := (fun p : Z * string * option Packet => (p.1.1, p.1.2))
                   <$> puts).
  assert (Hkeys : target.*2 = puts.*1.*2).
  { unfold target. rewrite <- !list_fmap_compose. reflexivity. }
  assert (Hts : target.*1 = puts.*1.*1).
  { unfold target. rewrite <- !list_fmap_compose. reflexivity. }
  assert (Hentries :
            (fun kv : string * storedMessage Packet => (ts kv.2, kv.1)) <$>
              map_to_list (list_to_map (rev (entry <$> puts))
                           : gmap string (storedMessage Packet))
            ≡ₚ target).
  { rewrite map_to_list_to_map.
    - rewrite <- Permutation_rev. unfold target.
      rewrite <- list_fmap_compose. reflexivity.
    - rewrite <- (Permutation_rev (entry <$> puts)).
      rewrite <- list_fmap_compose.
      replace (fst ∘ entry) with
        (snd ∘ fst : Z * string * option Packet -> string) by reflexivity.
      rewrite list_fmap_compose. exact Hnodup. }
  rewrite <- Hts in Hinc. split.
  - intros (tsKeys & Hperm & Hsorted & ->).
    rewrite Hentries in Hperm. rewrite <- Hkeys. f_equal.
    apply (StronglySorted_unique_strong
             (fun a b : Z * string => Before b.1 a.1 = false));
      [|exact Hsorted|apply increasing_sorted_by_ts; exact Hinc
       |exact Hperm].
    intros x y Hx Hy Hxy Hyx. unfold Before in *.
    apply (increasing_ts_inj target); try assumption; [|lia].
    rewrite <- Hperm. exact Hx.
  - intros ->. exists target. split; [|split].
    + symmetry. exact Hentries.
    + apply increasing_sorted_by_ts. exact Hinc.
    + symmetry. exact Hkeys.
Qed.

(** X20: insertion order in general: after any run of [Put]s on a store
    that was opened empty, with pairwise distinct keys and strictly
    increasing clock readings, [All] returns exactly the keys in the
    order they were put. *)
Theorem All_returns_Put_order puts (keys : list string) :
  NoDup puts.*1.*2 -> StronglySorted Z.lt puts.*1.*1 ->
  (All_returns (PutAll puts (Open NewOrderedMemoryStore)) keys
   <-> keys = puts.*1.*2).
Proof. apply PutAll_All. Qed.

(** X21: putting a key again re-stamps it: after [Put(k1)], [Put(k2)],
    [Put(k1)] with the last clock reading strictly after the second,
    [All] returns [[k2, k1]]: the overwritten key moves to the back. *)
Theorem Put_again_moves_to_back (t1 t2 t3 : Z) (k1 k2 : string) m1 m2 m3
    (keys : list string) :
  k1 <> k2 -> t2 < t3 ->
  (All_returns
     (Put t3 k1 m3 (Put t2 k2 m2 (Put t1 k1 m1 (Open NewOrderedMemoryStore))))
     keys
   <-> keys = [k2; k1]).
Proof.
  intros Hne Hlt.
  assert (Hsame :
            Put t3 k1 m3
              (Put t2 k2 m2 (Put t1 k1 m1 (Open NewOrderedMemoryStore)))
            = PutAll [(t2, k2, m2); (t3, k1, m3)]
                (Open NewOrderedMemoryStore)).
  { cbn. unfold Put. cbn. f_equal.
    rewrite (insert_insert_ne _ k2 k1) by congruence.
    rewrite insert_insert_eq. reflexivity. }
  rewrite Hsame. apply PutAll_All; cbn.
  - apply NoDup_cons. split; [|apply NoDup_singleton].
    rewrite list_elem_of_singleton. congruence.
  - repeat constructor. exact Hlt.
Qed.




End OrderedMemoryStoreExtras.

Lemma All_returns_Put_order_witness :
  let puts := [(10, "o.3", Some 7); (20, "o.1", Some 8); (35, "o.2", None)]%Z
              : list (Z * string * option Z) in
  NoDup puts.*1.*2 /\ StronglySorted Z.lt puts.*1.*1
  /\ (memstore_ordered.All_returns
        (memstore_ordered.PutAll puts
           (memstore_ordered.Open memstore_ordered.NewOrderedMemoryStore))
        ["o.3"; "o.1"; "o.2"]%string
      <-> ["o.3"; "o.1"; "o.2"]%string = puts.*1.*2).
Proof.
  intros puts.
  assert (Hnd : NoDup puts.*1.*2).
  { cbn. repeat constructor; intros Hin;
      repeat (apply elem_of_cons in Hin as [Hin|Hin]; [discriminate|]);
      apply elem_of_nil in Hin; exact Hin. }
  assert (Hinc : StronglySorted Z.lt puts.*1.*1)
    by (cbn; repeat constructor).
  split; [exact Hnd|]. split; [exact Hinc|].
  exact (All_returns_Put_order puts _ Hnd Hinc).
Defined.

Lemma Put_again_moves_to_back_witness :
  "o.1"%string <> "o.2"%string /\ (20 < 30)%Z
  /\ (memstore_ordered.All_returns
        (memstore_ordered.Put 30 "o.1" (Some 9%Z)
           (memstore_ordered.Put 20 "o.2" (Some 8%Z)
              (memstore_ordered.Put 10 "o.1" (Some 7%Z)
                 (memstore_ordered.Open
                    memstore_ordered.NewOrderedMemoryStore))))
        ["o.2"; "o.1"]%string
      <-> ["o.2"; "o.1"]%string = ["o.2"; "o.1"]%string).
Proof.
  assert (Hne : "o.1"%string <> "o.2"%string) by discriminate.
  assert (Hlt : (20 < 30)%Z) by reflexivity.
  split; [exact Hne|]. split; [exact Hlt|].
  exact (Put_again_moves_to_back 10 20 30 "o.1" "o.2"
           (Some 7%Z) (Some 8%Z) (Some 9%Z) _ Hne Hlt).
Defined.



(** * Further properties of the keepalive loop *)

Section KeepaliveExtras.

Import ping.
Local Open Scope Z_scope.

Variable o : options.

(** X24: at most one probe is outstanding at any time: over any run the
    number of PINGREQs sent is at most the number of PINGRESPs received,
    plus one if the flag was clear at the start. *)
Theorem pings_bounded_by_responses (events : list event) :
  forall c pingSent,
    (pings (keepalive_loop o events c pingSent).1.1
     <= responses events
        + (if (pingOutstanding c =? 0)%Z then 1 else 0))%nat.
Proof.
  induction events as [|e events IH]; intros c pingSent; [cbn; lia|].
  destruct e as [|r|t|t|t]; cbn [keepalive_loop].
  - cbn. lia.
  - unfold tick.
    destruct (probe o r c pingSent) as [[c' pingSent'] acts] eqn:Hprobe.
    apply probe_sends in Hprobe as [_ Hprobe].
    change (responses (Tick r :: events)) with (responses events).
    assert (Hacts : (pings acts
                     + (if (pingOutstanding c' =? 0)%Z then 1 else 0)
                     <= (if (pingOutstanding c =? 0)%Z then 1 else 0))%nat).
    { destruct Hprobe as [(-> & -> & _)|(-> & Hzero & Hone & _)].
      - destruct (pingOutstanding c =? 0); cbn; lia.
      - rewrite Hzero, Hone. cbn. lia. }
    destruct (timedOut o r c' pingSent').
    + cbn [fst snd]. rewrite pings_app. cbn.
      destruct (pingOutstanding c' =? 0); lia.
    + specialize (IH c' pingSent').
      destruct (keepalive_loop o events c' pingSent') as [[acts' st] c''].
      cbn [fst snd] in *. rewrite pings_app. lia.
  - specialize (IH (environment (PacketSent t) c) pingSent).
    change (responses (PacketSent t :: events)) with (responses events).
    exact IH.
  - specialize (IH (environment (PacketReceived t) c) pingSent).
    change (responses (PacketReceived t :: events)) with (responses events).
    exact IH.
  - specialize (IH (environment (PingrespReceived t) c) pingSent).
    change (responses (PingrespReceived t :: events))
      with (S (responses events)).
    cbn [environment pingOutstanding Z.eqb] in IH |- *.
    destruct (pingOutstanding c =? 0); lia.
Qed.

(** X25: the stop signal ends the loop at once and quietly: what follows
    it is never looked at, nothing is sent or declared lost because of
    it, and the run ends [Stopped] unless the connection had already
    been declared lost. *)
Theorem stop_ends_the_loop (events rest : list event) :
  forall c pingSent,
    keepalive_loop o (events ++ Stop :: rest) c pingSent
    = (let '(acts, st, c') := keepalive_loop o events c pingSent in
       (acts, match st with Running => Stopped | _ => st end, c')).
Proof.
  induction events as [|e events IH]; intros c pingSent; [reflexivity|].
  destruct e as [|r|t|t|t]; cbn [app keepalive_loop]; try apply IH.
  - reflexivity.
  - destruct (tick o r c pingSent) as [[[c' pingSent'] acts] returns].
    destruct returns; [reflexivity|].
    rewrite IH.
    destruct (keepalive_loop o events c' pingSent') as [[acts' st] c''].
    reflexivity.
Qed.

(** X26: for a [KeepAlive] that is not negative, the ticker period is
    positive exactly when [KeepAlive] is at least one second, and then it
    is at most five seconds and fits at least twice into the keepalive
    interval. *)
Theorem checkInterval_bounds :
  0 <= KeepAlive o ->
  (0 < checkInterval o <-> 1 <= KeepAlive o)
  /\ (1 <= KeepAlive o ->
      checkInterval o <= 5 * Second
      /\ 2 * checkInterval o <= KeepAlive o * Second).
Proof.
  intros Hnonneg. unfold checkInterval, Second.
  destruct (Z.ltb_spec 10 (KeepAlive o)) as [Hbig|Hsmall].
  - split; [split; intros; lia|intros; lia].
  - assert (Hq : KeepAlive o * 1000000000
                 = 4 * (KeepAlive o * 250000000)) by lia.
    rewrite Hq, Z.mul_comm, Z.quot_mul by lia.
    split; [split; intros; lia|intros; lia].
Qed.

End KeepaliveExtras.

Lemma checkInterval_bounds_witness :
  let o := {| ping.KeepAlive := 6; ping.PingTimeout := 10 * ping.Second |} in
  (0 <= ping.KeepAlive o)%Z
  /\ ping.checkInterval o = 1500000000%Z
  /\ (2 * ping.checkInterval o <= ping.KeepAlive o * ping.Second)%Z.
Proof.
  intros o.
  assert (H0 : (0 <= ping.KeepAlive o)%Z) by (cbn; lia).
  assert (H1 : (1 <= ping.KeepAlive o)%Z) by (cbn; lia).
  split; [exact H0|]. split; [reflexivity|].
  exact (proj2 (proj2 (checkInterval_bounds o H0) H1)).
Defined.

(** * Properties of the file store's directory listing *)

Section FileStoreExtras.

Import filestore.

Ltac append_step :=
  repeat match goal with
         | |- context [String.append (String ?x ?a) ?b] =>
             change (String.append (String x a) b)
               with (String x (String.append a b))
         | |- context [String.append EmptyString ?b] =>
             change (String.append EmptyString b) with b
         end.

Lemma length_append (a b : string) :
  String.length (String.append a b) = String.length a + String.length b.
Proof.
  induction a as [|c a IH]; append_step; simpl; [reflexivity|].
  f_equal. exact IH.
Qed.

Lemma append_assoc (a b c : string) :
  String.append (String.append a b) c = String.append a (String.append b c).
Proof.
  induction a as [|x a IH]; append_step; [reflexivity|].
  f_equal. exact IH.
Qed.

Lemma substring_0_all (b : string) :
  String.substring 0 (String.length b) b = b.
Proof. induction b as [|c b IH]; simpl; [reflexivity|]. f_equal. exact IH. Qed.

Lemma substring_0_append (a b : string) :
  String.substring 0 (String.length a) (String.append a b) = a.
Proof.
  induction a as [|c a IH]; append_step; simpl;
    [destruct b; reflexivity|].
  f_equal. exact IH.
Qed.

Lemma substring_skip_append (a b : string) (m : nat) :
  String.substring (String.length a) m (String.append a b)
  = String.substring 0 m b.
Proof.
  induction a as [|c a IH]; append_step; simpl; [reflexivity|]. exact IH.
Qed.

Lemma substring_split (name : string) :
  forall n, n <= String.length name ->
    name = String.append (String.substring 0 n name)
             (String.substring n (String.length name - n) name).
Proof.
  induction name as [|c name IH]; intros n Hn.
  - cbn in Hn. replace n with 0 by lia. reflexivity.
  - destruct n as [|n].
    + rewrite Nat.sub_0_r, substring_0_all. reflexivity.
    + cbn [String.length] in *. cbn [String.substring Nat.sub]. append_step.
      f_equal. apply IH. lia.
Qed.

(** The last four bytes of a name that ends in a four-byte extension. *)
Lemma suffix_of_append (stem ext : string) :
  String.length ext = 4 ->
  String.substring (String.length (String.append stem ext) - 4) 4
    (String.append stem ext) = ext.
Proof.
  intros Hext. rewrite length_append, Hext.
  replace (String.length stem + 4 - 4) with (String.length stem) by lia.
  rewrite substring_skip_append, <- Hext. apply substring_0_all.
Qed.

Lemma keyOfName_msgName (name key : string) :
  keyOfName name = Some key <-> name = msgName key.
Proof.
  split.
  - unfold keyOfName. change (String.length msgExt) with 4.
    destruct (Nat.ltb_spec (String.length name) 4) as [|Hlen];
      [discriminate|].
    destruct (String.eqb_spec
                (String.substring (String.length name - 4) 4 name) msgExt)
      as [Hext|]; [|discriminate].
    cbn [negb orb]. intros [= <-].
    rewrite (substring_split name (String.length name - 4)) at 1 by lia.
    replace (String.length name - (String.length name - 4)) with 4 by lia.
    rewrite Hext. reflexivity.
  - intros ->. unfold keyOfName, msgName.
    change (String.length msgExt) with 4.
    rewrite suffix_of_append by reflexivity.
    rewrite length_append. change (String.length msgExt) with 4.
    destruct (Nat.ltb_spec (String.length key + 4) 4) as [|_]; [lia|].
    rewrite String.eqb_refl. cbn [negb orb].
    replace (String.length key + 4 - 4) with (String.length key) by lia.
    rewrite substring_0_append. reflexivity.
Qed.

(** X27: [all] recognises exactly the message files: a directory entry
    yields the key [k] if and only if its name is [k] followed by
    [.msg]. In particular the in-flight [k.tmp] and the quarantined
    [k.CORRUPT] of any key are skipped. *)
Theorem keyOfName_msg_files_only (name key : string) :
  (keyOfName name = Some key <-> name = msgName key)
  /\ keyOfName (tmpName key) = None
  /\ keyOfName (corruptName key) = None.
Proof.
  split; [apply keyOfName_msgName|split].
  - unfold keyOfName, tmpName. change (String.length msgExt) with 4.
    rewrite suffix_of_append by reflexivity.
    rewrite orb_true_r. reflexivity.
  - unfold keyOfName, corruptName. change (String.length msgExt) with 4.
    change corruptExt with (String.append ".COR" "RUPT").
    rewrite <- append_assoc, suffix_of_append by reflexivity.
    rewrite orb_true_r. reflexivity.
Qed.

(** X28: on an open store [all] returns the stem of every [.msg] file
    in the directory and nothing else, whatever the modification times
    and however the sort breaks ties; on a store that is not open it
    returns nothing. *)
Theorem all_lists_the_msg_files (entries : list fileInfo)
    (keys : list string) :
  (all_returns true entries keys ->
   forall k, k ∈ keys <-> exists f, f ∈ entries /\ Name f = msgName k)
  /\ (all_returns false entries keys -> keys = []).
Proof.
  split; [|intros H; exact H].
  unfold all_returns. cbn [negb]. intros (files & Hperm & _ & ->) k.
  rewrite list_elem_of_omap. split.
  - intros (f & Hf & Hkey). exists f. split; [rewrite <- Hperm; exact Hf|].
    apply keyOfName_msgName. exact Hkey.
  - intros (f & Hf & Hname). exists f. split; [rewrite Hperm; exact Hf|].
    apply keyOfName_msgName. exact Hname.
Qed.

End FileStoreExtras.
